(** * utility.py: SQLite to MariaDB migration, schema translation and batch moves

    A shallow embedding of [src/utility.py] and the properties of its
    type mapper, DDL parsers, table loop and batch loop.

    Text is modelled as lists of characters, and the character tests
    ([str.upper], [str.strip], the classes [\s] and [\w] of [re]) are
    embedded on ASCII, where they agree with Python's.  Outside ASCII
    Python follows the Unicode tables (more spaces, more word
    characters, case mappings that change letters or lengths), which
    are not embedded: a property that depends on these tests is stated
    for ASCII text ([Text.ascii_text]). *)

From Stdlib Require Import List Ascii String ZArith Lia Bool Arith.
Import ListNotations.

Set Implicit Arguments.

Open Scope string_scope.
Open Scope list_scope.
Open Scope nat_scope.

(** ** Text *)

Definition str := list ascii.

Coercion list_ascii_of_string : string >-> list.

Module Text.

Definition code (c : ascii) : nat := nat_of_ascii c.

(** The ASCII characters, and the texts made of them. *)
Definition is_ascii (c : ascii) : bool := code c <? 128.

Definition ascii_text (s : str) : Prop := forallb is_ascii s = true.

Definition between (lo hi : nat) (c : ascii) : bool :=
  (lo <=? code c) && (code c <=? hi).

Definition is_lower (c : ascii) : bool := between 97 122 c.

(** [str.upper], one character at a time. *)
Definition upper_char (c : ascii) : ascii :=
  if is_lower c then ascii_of_nat (code c - 32) else c.

Definition upper (s : str) : str := map upper_char s.

(** [str.isspace] on one character, which is also the class [\s]:
    tab, newline, vertical tab, form feed, carriage return, the four
    separators 28..31 and the blank. *)
Definition is_space (c : ascii) : bool :=
  between 9 13 c || between 28 31 c || (code c =? 32).

(** The class [\w]: letters, digits and the underscore. *)
Definition is_word (c : ascii) : bool :=
  between 48 57 c || between 65 90 c || between 97 122 c || (code c =? 95).

Definition mem (c : ascii) (set : str) : bool := existsb (Ascii.eqb c) set.

(** [s.startswith(p)] *)
Fixpoint startswith (p s : str) : bool :=
  match p, s with
  | [], _ => true
  | _ :: _, [] => false
  | a :: p', b :: s' => Ascii.eqb a b && startswith p' s'
  end.

(** [needle in hay] *)
Fixpoint contains (needle hay : str) : bool :=
  startswith needle hay ||
  match hay with
  | [] => false
  | _ :: hay' => contains needle hay'
  end.

Fixpoint lstrip_by (p : ascii -> bool) (s : str) : str :=
  match s with
  | c :: s' => if p c then lstrip_by p s' else s
  | [] => []
  end.

Definition rstrip_by (p : ascii -> bool) (s : str) : str :=
  rev (lstrip_by p (rev s)).

Definition strip_by (p : ascii -> bool) (s : str) : str :=
  rstrip_by p (lstrip_by p s).

(** [s.strip()] *)
Definition strip (s : str) : str := strip_by is_space s.

(** [s.strip(chars)] *)
Definition strip_chars (chars s : str) : str :=
  strip_by (fun c => mem c chars) s.

(** [s.split(sep)] for a one-character separator: [n] separators
    give [n + 1] pieces, and the empty text gives one empty piece. *)
Fixpoint split_char (sep : ascii) (s : str) : list str :=
  match s with
  | [] => [[]]
  | c :: s' =>
      if Ascii.eqb c sep then [] :: split_char sep s'
      else match split_char sep s' with
           | piece :: rest => (c :: piece) :: rest
           | [] => [[c]]
           end
  end.

(** [sep.join(pieces)] *)
Fixpoint join (sep : str) (pieces : list str) : str :=
  match pieces with
  | [] => []
  | [p] => p
  | p :: rest => p ++ sep ++ join sep rest
  end.

End Text.

(** ** Letters and their case

    What "up to the case of the letters" means in the specification,
    said without the case mapping of the code: the alphabet is listed. *)
Module Caseless.







End Caseless.

(** ** The type mapper (lines 6-19) *)

Definition sqlite_type_to_mysql (sqlite_type : str) : str :=
  let t := Text.upper sqlite_type in
  if Text.contains "INT" t then "INT"
  else if Text.contains "CHAR" t || Text.contains "CLOB" t
          || Text.contains "TEXT" t then "TEXT"
  else if Text.contains "BLOB" t then "BLOB"
  else if Text.contains "REAL" t || Text.contains "FLOA" t
          || Text.contains "DOUB" t then "DOUBLE"
  else if Text.contains "DATE" t || Text.contains "TIME" t then "DATETIME"
  else "TEXT".

(** The mapper as the specification words it: an ordered list of rules,
    each a set of keywords and a target type; a rule applies when one of
    its keywords occurs in the token, whatever the case of the letters;
    the first rule that applies gives the result, and [TEXT] is the
    result when none does. *)
Module MapTypeSpec.










End MapTypeSpec.

(** ** Regular expressions

    The fragment of Python's [re] that the parsers use, with its
    backtracking semantics: alternatives are tried in priority order
    (greedy repetition tries one more iteration before stopping) and the
    first overall success is the match. *)
Module Re.

Inductive regex : Type :=
| Chr (p : ascii -> bool)       (* one character of a class *)
| Cat (r1 r2 : regex)           (* r1 r2 *)
| Opt (r : regex)               (* r?  *)
| Star (r : regex)              (* r*  *)
| Group (n : nat) (r : regex)   (* the n-th capturing group *)
| NegLook (r : regex).          (* (?!r) *)

Definition Plus (r : regex) : regex := Cat r (Star r).
Definition lit (c : ascii) : regex := Chr (Ascii.eqb c).

(** Captured groups, the most recent binding first. *)
Definition captures : Type := list (nat * str).

Fixpoint group (caps : captures) (n : nat) : option str :=
  match caps with
  | [] => None
  | (m, s) :: caps' => if m =? n then Some s else group caps' n
  end.

(** The greedy loop of a star over [body]: one more iteration is
    tried first, and the continuation [k] when that fails.  An
    iteration that consumes nothing is not taken, so [fuel], the
    length of the text, is never exhausted. *)
Fixpoint star_loop {R : Type}
         (body : str -> captures -> (str -> captures -> option R)
                 -> option R)
         (k : str -> captures -> option R)
         (fuel : nat) (s : str) (caps : captures) : option R :=
  match fuel with
  | O => k s caps
  | S fuel' =>
      match body s caps
              (fun s' caps' =>
                 if List.length s' <? List.length s
                 then star_loop body k fuel' s' caps' else None) with
      | Some x => Some x
      | None => k s caps
      end
  end.

(** [exec r s caps k] matches [r] at the start of [s] and hands the
    rest of the text to the continuation [k]; when [k] fails the next
    alternative of [r] is tried. *)
Fixpoint exec {R : Type} (r : regex) (s : str) (caps : captures)
         (k : str -> captures -> option R) {struct r} : option R :=
  match r with
  | Chr p =>
      match s with
      | c :: s' => if p c then k s' caps else None
      | [] => None
      end
  | Cat r1 r2 => exec r1 s caps (fun s' caps' => exec r2 s' caps' k)
  | Opt r1 =>
      match exec r1 s caps k with
      | Some x => Some x
      | None => k s caps
      end
  | Star r1 => star_loop (exec r1) k (List.length s) s caps
  | Group n r1 =>
      exec r1 s caps
        (fun s' caps' =>
           k s' ((n, firstn (List.length s - List.length s') s) :: caps'))
  | NegLook r1 =>
      match exec r1 s caps (fun _ _ => Some tt) with
      | Some _ => None
      | None => k s caps
      end
  end.

(** What a greedy star over one character class comes to: the
    continuation is tried after the longest run first, then after
    each shorter one. *)
Fixpoint star_chr {R : Type} (p : ascii -> bool)
         (k : str -> captures -> option R) (caps : captures) (s : str)
  : option R :=
  match s with
  | c :: s' =>
      if p c
      then match star_chr p k caps s' with
           | Some x => Some x
           | None => k s caps
           end
      else k s caps
  | [] => k [] caps
  end.

(** A match found at the start of a text: what is left after it, and
    the groups. *)
Definition match_at (r : regex) (s : str) : option (str * captures) :=
  exec r s [] (fun s' caps => Some (s', caps)).

(** [re.match(r, s)]: the groups of the match at the start of [s]. *)
Definition re_match (r : regex) (s : str) : option captures :=
  option_map snd (match_at r s).

(** [re.search(r, s)]: the groups of the leftmost match. *)
Fixpoint re_search (r : regex) (s : str) : option captures :=
  match match_at r s with
  | Some (_, caps) => Some caps
  | None =>
      match s with
      | [] => None
      | _ :: s' => re_search r s'
      end
  end.

(** [re.split(r, s)] for a pattern without groups whose matches are
    never empty: the pieces between the successive leftmost matches.
    [skip] counts the characters of the current match still to drop,
    [piece] is the current piece, reversed. *)
Fixpoint split_loop (r : regex) (skip : nat) (piece : str) (s : str)
  : list str :=
  match skip with
  | S skip' =>
      match s with
      | [] => [rev piece]
      | _ :: s' => split_loop r skip' piece s'
      end
  | O =>
      match s with
      | [] => [rev piece]
      | c :: s' =>
          match match_at r s with
          | Some (rest, _) =>
              match List.length s - List.length rest with
              | S n => rev piece :: split_loop r n [] s'
              | O => split_loop r 0 (c :: piece) s'
              end
          | None => split_loop r 0 (c :: piece) s'
          end
      end
  end.

Definition re_split (r : regex) (s : str) : list str :=
  split_loop r 0 [] s.

End Re.

(** ** The DDL column parser (lines 21-38) *)

Definition dquote : ascii := "034"%char.

(** The pattern of line 22: an opening parenthesis, group 1 made of a
    greedy run of any characters (the dot under [re.S] takes newlines
    too), and a closing parenthesis. *)
Definition re_column_list : Re.regex :=
  Re.Cat (Re.lit "(")
    (Re.Cat (Re.Group 1 (Re.Star (Re.Chr (fun _ => true)))) (Re.lit ")")).

Definition not_paren (c : ascii) : bool := negb (Text.mem c "()").

(** The pattern of line 27: a comma, a greedy run of spaces, and a
    negative lookahead for a run of characters other than parentheses
    followed by a closing parenthesis. *)
Definition re_clause_comma : Re.regex :=
  Re.Cat (Re.lit ",")
    (Re.Cat (Re.Star (Re.Chr Text.is_space))
       (Re.NegLook
          (Re.Cat (Re.Star (Re.Chr not_paren)) (Re.lit ")")))).

(** The first parenthesis met in the text, if any, is a closing one. *)
Definition closes_first (s : str) : bool :=
  match Text.lstrip_by not_paren s with
  | ")"%char :: _ => true
  | _ => false
  end.

(** The pattern of line 33: an optional opening backquote, double quote
    or bracket; group 1, one or more word characters; an optional
    closing backquote, double quote or bracket; one or more spaces;
    group 2, one or more characters that are neither spaces nor commas. *)
Definition re_column : Re.regex :=
  Re.Cat (Re.Opt (Re.Chr (fun c => Text.mem c ["`"%char; dquote; "["%char])))
    (Re.Cat (Re.Group 1 (Re.Plus (Re.Chr Text.is_word)))
       (Re.Cat
          (Re.Opt (Re.Chr (fun c => Text.mem c ["`"%char; dquote; "]"%char])))
          (Re.Cat (Re.Plus (Re.Chr Text.is_space))
             (Re.Group 2
                (Re.Plus
                   (Re.Chr (fun c =>
                      negb (Text.is_space c || Ascii.eqb c ","))))))))%char.

Definition constraint_keywords : list str :=
  ["CONSTRAINT" : str; "PRIMARY KEY" : str; "UNIQUE" : str;
   "FOREIGN KEY" : str].

(** The test of line 31 on a stripped clause: [not line or
    line.upper().startswith((...))]. *)
Definition skipped_clause (line : str) : bool :=
  match line with
  | [] => true
  | _ => existsb (fun kw => Text.startswith kw (Text.upper line))
           constraint_keywords
  end.

(** [col_match.groups()] of line 33 on a stripped clause: the name and
    the type token. *)
Definition column_tokens (line : str) : option (str * str) :=
  match Re.re_match re_column line with
  | Some m =>
      match Re.group m 1, Re.group m 2 with
      | Some col_name, Some col_type => Some (col_name, col_type)
      | _, _ => None
      end
  | None => None
  end.

(** One turn of the loop of lines 28-37. *)
Definition parse_columns_step (col_defs : list (str * str)) (part : str)
  : list (str * str) :=
  let line := Text.strip part in
  if skipped_clause line then col_defs
  else match column_tokens line with
       | Some (col_name, col_type) =>
           let mysql_type := sqlite_type_to_mysql col_type in
           col_defs ++ [(col_name, mysql_type)]
       | None => col_defs
       end.

(** The [parts] of line 27, when line 22 finds a column list. *)
Definition column_clauses (schema : str) : option (list str) :=
  match Re.re_search re_column_list schema with
  | Some cols =>
      match Re.group cols 1 with
      | Some inner => Some (Re.re_split re_clause_comma inner)
      | None => None
      end
  | None => None
  end.

Definition parse_columns (schema : str) : list (str * str) :=
  match column_clauses schema with
  | None => []
  | Some parts => fold_left parse_columns_step parts []
  end.

(** ** The source database *)

(** A row of [sqlite_master]; [m_sql] is [None] for SQL NULL. *)
Record master_row : Type := {
  m_type : str;
  m_name : str;
  m_tbl_name : str;
  m_sql : option str
}.

Section Source.

(** The values stored in table cells are only moved, never inspected. *)
Variable value : Type.

(** What the run reads through the SQLite connection.  The catalog is
    read by fixed queries with a bound parameter (lines 41, 46-47 and
    76).  The data is read by a query into which the table name is
    pasted between backquotes (line 104): [select_all t] is the outcome
    of executing that text and of [fetchall] (line 105), [None] when
    one of them raises (a name holding a backquote makes a text that
    SQLite refuses), else the rows; [description t] gives the column
    names of [cursor.description] after a read that returned. *)
Record sqlite_conn : Type := {
  sqlite_master : list master_row;
  select_all : str -> option (list (list value));
  description : str -> list str
}.

Definition str_eqb (a b : str) : bool :=
  if list_eq_dec ascii_dec a b then true else false.

(** Lines 40-42. *)
Definition get_tables (conn : sqlite_conn) : list str :=
  let cursor :=
    filter (fun r => str_eqb (m_type r) "table") (sqlite_master conn) in
  map m_name
    (filter (fun r => negb (Text.startswith "sqlite_" (m_name r))) cursor).

(** Lines 76-77: [fetchone] on the creation text of a table; [None]
    when no row answers, [Some None] when the text is NULL. *)
Definition fetch_schema (conn : sqlite_conn) (table : str)
  : option (option str) :=
  match filter (fun r => str_eqb (m_type r) "table"
                         && str_eqb (m_name r) table)
          (sqlite_master conn) with
  | r :: _ => Some (m_sql r)
  | [] => None
  end.

(** The test of line 78, [row and row[0]]: the creation text when a row
    was fetched and its text is neither NULL nor empty. *)
Definition usable_schema (row : option (option str)) : option str :=
  match row with
  | Some (Some (c :: schema)) => Some (c :: schema)
  | _ => None
  end.

(** ** The index descriptor parser (lines 44-55) *)

Record index_descr : Type := {
  idx_name : str;
  idx_unique : bool;
  idx_columns : list str
}.

Definition not_close (c : ascii) : bool := negb (Ascii.eqb c ")").

(** The pattern of line 51: an opening parenthesis, group 1 made of
    one or more characters other than the closing parenthesis, and a
    closing parenthesis. *)
Definition re_index_columns : Re.regex :=
  Re.Cat (Re.lit "(")
    (Re.Cat (Re.Group 1 (Re.Plus (Re.Chr not_close))) (Re.lit ")")).

(** The characters stripped on line 53: backquote, double quote and
    the two square brackets. *)
Definition quote_chars : str := ["`"; dquote; "["; "]"]%char.

(** [col.strip().strip(...)] of line 53. *)
Definition clean_column (col : str) : str :=
  Text.strip_chars quote_chars (Text.strip col).

(** One turn of the loop of lines 48-54, on one row [(name, sql)]. *)
Definition get_indexes_step (index_list : list index_descr)
           (row : str * str) : list index_descr :=
  let (name, sql) := row in
  let unique := Text.contains "UNIQUE" (Text.upper sql) in
  match Re.re_search re_index_columns sql with
  | Some m =>
      match Re.group m 1 with
      | Some inner =>
          let columns := map clean_column (Text.split_char "," inner) in
          index_list ++
            [{| idx_name := name; idx_unique := unique;
                idx_columns := columns |}]
      | None => index_list
      end
  | None => index_list
  end.

(** The rows of the query of lines 46-47: the indexes of [table]
    whose creation text is not NULL. *)
Definition index_rows (conn : sqlite_conn) (table : str)
  : list (str * str) :=
  flat_map
    (fun r =>
       if str_eqb (m_type r) "index" && str_eqb (m_tbl_name r) table
       then match m_sql r with
            | Some sql => [(m_name r, sql)]
            | None => []
            end
       else [])
    (sqlite_master conn).

Definition get_indexes (conn : sqlite_conn) (table : str)
  : list index_descr :=
  fold_left get_indexes_step (index_rows conn table) [].

(** ** Python ranges and slices *)

(** The elements of [range(start, stop, step)] from [i] on. *)
Fixpoint range_from (fuel : nat) (i stop step : Z) : list Z :=
  match fuel with
  | O => []
  | S fuel' =>
      if ((0 <? step) && (i <? stop) || (step <? 0) && (stop <? i))%Z
      then i :: range_from fuel' (i + step)%Z stop step
      else []
  end.

(** [range(start, stop, step)]; a zero step raises [ValueError]. *)
Definition py_range (start stop step : Z) : option (list Z) :=
  if (step =? 0)%Z then None
  else Some (range_from (Z.abs_nat (stop - start)) start stop step).

(** A slice bound brought into [0 .. n]. *)
Definition clamp (n i : Z) : Z :=
  (if i <? 0 then Z.max 0 (i + n) else Z.min i n)%Z.

(** [l[lo:hi]] *)
Definition slice {A : Type} (l : list A) (lo hi : Z) : list A :=
  let n := Z.of_nat (List.length l) in
  let a := Z.to_nat (clamp n lo) in
  let b := Z.to_nat (clamp n hi) in
  firstn (b - a) (skipn a l).

(** The [j]-th run of [b] elements of a list. *)
Definition chunk {A : Type} (b : nat) (l : list A) (j : nat) : list A :=
  firstn b (skipn (j * b) l).

(** ** The target connection *)

(** The MariaDB side as a capability: [execute] and [commit] give the
    next state of the server and tell whether the call returned
    ([true]) or raised an exception ([false]). *)
Record target : Type := {
  tstate : Type;
  execute : tstate -> str -> list value -> tstate * bool;
  commit : tstate -> tstate * bool
}.

(** What was asked of the target connection. *)
Inductive call : Type :=
| Execute (sql : str) (params : list value)
| Commit.

(** What the run prints. *)
Inductive line : Type :=
| TablesFound (tables : list str)
| ColumnsFor (table : str) (cols : list str)
| CreatingTable (table : str)
| CreatingIndex (table idx_sql : str)
| IndexWarning (name : str)
| SqliteColumns (table : str) (cols : list str)
| BatchError (number : Z) (table : str)
| BatchInserted (number : Z) (table : str)
| NoData (table : str)
| MigrationComplete.

End Source.

(** ** The run (lines 57-127) *)

Section Run.

Variable value : Type.
Variable T : target value.
Variable conn_sqlite : sqlite_conn value.

(** The state the run threads along: the server behind the target
    connection, the calls made on it with their outcome ([true] when
    the call returned, [false] when it raised), the printed lines, and
    whether each connection has been closed. *)
Record world : Type := {
  server : tstate T;
  asked : list (call value * bool);
  printed : list line;
  mysql_closed : bool;
  sqlite_closed : bool
}.

(** A computation either returns a result or lets an exception
    escape ([None]). *)
Definition M (A : Type) : Type := world -> world * option A.

Definition ret {A : Type} (a : A) : M A := fun w => (w, Some a).

Definition bind {A B : Type} (m : M A) (f : A -> M B) : M B :=
  fun w =>
    match m w with
    | (w', Some a) => f a w'
    | (w', None) => (w', None)
    end.

Definition raise {A : Type} : M A := fun w => (w, None).

(** [try: body except Exception: handler] *)
Definition try_except (body handler : M unit) : M unit :=
  fun w =>
    match body w with
    | (w', Some _) => (w', Some tt)
    | (w', None) => handler w'
    end.

Notation "m1 ;; m2" := (bind m1 (fun _ => m2))
  (at level 61, right associativity).

(** [for x in l: body x] *)
Fixpoint for_each {A : Type} (l : list A) (body : A -> M unit) : M unit :=
  match l with
  | [] => ret tt
  | x :: l' => body x ;; for_each l' body
  end.

Definition print (l : line) : M unit :=
  fun w =>
    ({| server := server w; asked := asked w;
        printed := printed w ++ [l];
        mysql_closed := mysql_closed w;
        sqlite_closed := sqlite_closed w |}, Some tt).

Definition record_call (w : world) (s : tstate T) (c : call value)
           (ok : bool) : world * option unit :=
  ({| server := s; asked := asked w ++ [(c, ok)];
      printed := printed w;
      mysql_closed := mysql_closed w;
      sqlite_closed := sqlite_closed w |},
   if ok then Some tt else None).

(** [cursor_mysql.execute(sql, params)] *)
Definition cursor_execute (sql : str) (params : list value) : M unit :=
  fun w =>
    let (s, ok) := execute T (server w) sql params in
    record_call w s (Execute sql params) ok.

(** [conn_mysql.commit()] *)
Definition conn_commit : M unit :=
  fun w =>
    let (s, ok) := commit T (server w) in
    record_call w s (@Commit value) ok.

(** Lines 123-126. *)
Definition close_connections : M unit :=
  fun w =>
    ({| server := server w; asked := asked w; printed := printed w;
        mysql_closed := true; sqlite_closed := true |}, Some tt).

Definition backquoted (s : str) : str := "`" ++ s ++ "`".

(** Lines 82-83. *)
Definition create_sql (table : str) (columns : list (str * str)) : str :=
  let col_defs :=
    Text.join ", "
      (map (fun ct => backquoted (fst ct) ++ " " ++ snd ct) columns) in
  "CREATE TABLE IF NOT EXISTS " ++ backquoted table
    ++ " (" ++ col_defs ++ ");".

(** Line 85. *)
Definition drop_sql (table : str) : str :=
  "DROP TABLE IF EXISTS " ++ backquoted table ++ ";".

(** Lines 92-96. *)
Definition index_sql (table : str) (idx : index_descr) : str :=
  let idx_cols := Text.join ", " (map backquoted (idx_columns idx)) in
  if idx_unique idx
  then "CREATE UNIQUE INDEX " ++ backquoted (idx_name idx) ++ " ON "
         ++ backquoted table ++ " (" ++ idx_cols ++ ");"
  else "CREATE INDEX " ++ backquoted (idx_name idx) ++ " ON "
         ++ backquoted table ++ " (" ++ idx_cols ++ ");".

(** Lines 111-112. *)
Definition insert_sql (table : str) (cols : list str)
           (batch : list (list value)) : str :=
  let values_str :=
    Text.join ", "
      (map (fun _ =>
              "(" ++ Text.join ", " (repeat ("%s" : str) (List.length cols))
                ++ ")")
         batch) in
  "INSERT INTO " ++ backquoted table ++ " ("
    ++ Text.join ", " (map backquoted cols) ++ ") VALUES " ++ values_str.

(** Lines 91-101: the index loop of one table. *)
Definition create_indexes (table : str) : M unit :=
  for_each (get_indexes conn_sqlite table)
    (fun idx =>
       let idx_sql := index_sql table idx in
       print (CreatingIndex table idx_sql) ;;
       try_except (cursor_execute idx_sql [])
         (print (IndexWarning (idx_name idx)))).

(** Lines 110-119: one turn of the batch loop, at index [i]. *)
Definition move_batch (table : str) (cols : list str)
           (rows : list (list value)) (batch_size i : Z) : M unit :=
  let batch := slice rows i (i + batch_size) in
  let sql := insert_sql table cols batch in
  let values := List.concat batch in
  let number := (i / batch_size + 1)%Z in
  try_except (cursor_execute sql values ;; conn_commit)
    (print (BatchError number table)) ;;
  print (BatchInserted number table).

(** Lines 104-121: the data of one table.  The read of lines 104-105
    stands outside every [try]: when it raises, the exception escapes. *)
Definition move_rows (table : str) (batch_size : Z) : M unit :=
  match select_all conn_sqlite table with
  | None => raise
  | Some [] => print (NoData table)
  | Some (row :: more) =>
      let rows := row :: more in
      let cols := description conn_sqlite table in
      print (SqliteColumns table cols) ;;
      match py_range 0 (Z.of_nat (List.length rows)) batch_size with
      | None => raise
      | Some starts =>
          for_each starts (move_batch table cols rows batch_size)
      end
  end.

(** Lines 76-121: the body of the table loop. *)
Definition migrate_table (batch_size : Z) (table : str) : M unit :=
  match usable_schema (fetch_schema conn_sqlite table) with
  | Some schema =>
      let columns := parse_columns schema in
      print (ColumnsFor table (map fst columns)) ;;
      print (CreatingTable table) ;;
      cursor_execute (drop_sql table) [] ;;
      cursor_execute (create_sql table columns) [] ;;
      conn_commit ;;
      create_indexes table ;;
      move_rows table batch_size
  | None => ret tt
  end.

(** Lines 71-127, once both connections are open. *)
Definition main (batch_size : Z) : M unit :=
  let tables := get_tables conn_sqlite in
  print (TablesFound tables) ;;
  for_each tables (migrate_table batch_size) ;;
  close_connections ;;
  print MigrationComplete.

(** The world when both connections have just been opened. *)
Definition start (s0 : tstate T) : world :=
  {| server := s0; asked := []; printed := [];
     mysql_closed := false; sqlite_closed := false |}.

End Run.

(** ** What a run asks of the target *)

Section Plan.

Variable value : Type.
Variable conn_sqlite : sqlite_conn value.

(** A statement with its parameters, as passed to [cursor.execute]. *)
Definition statement : Type := (str * list value)%type.

(** The statements among the calls made on the target. *)
Definition executed (calls : list (call value * bool)) : list statement :=
  flat_map (fun c => match fst c with
                     | Execute sql params => [(sql, params)]
                     | Commit _ => []
                     end) calls.

(** The calls that raised. *)
Definition failures (calls : list (call value * bool)) : nat :=
  List.length (filter (fun c => negb (snd c)) calls).

(** The printed warnings and errors. *)
Definition reports (lines : list line) : nat :=
  List.length (filter (fun l => match l with
                                | IndexWarning _ | BatchError _ _ => true
                                | _ => false
                                end) lines).

(** The batches of line 110, one for each index of the range of
    line 109. *)
Definition planned_batches (rows : list (list value)) (batch_size : Z)
  : list (list (list value)) :=
  match py_range 0 (Z.of_nat (List.length rows)) batch_size with
  | Some starts => map (fun i => slice rows i (i + batch_size)) starts
  | None => []
  end.

(** The insert of lines 111-115 for one batch. *)
Definition insert_statement (table : str) (cols : list str)
           (batch : list (list value)) : statement :=
  (insert_sql table cols batch, List.concat batch).

(** The rows that the read of lines 104-105 hands to the batch loop:
    none when the read raises. *)
Definition rows_read (table : str) : list (list value) :=
  match select_all conn_sqlite table with
  | Some rows => rows
  | None => []
  end.

(** The statements of one table, in the order of lines 85-115. *)
Definition table_plan (batch_size : Z) (table : str) : list statement :=
  match usable_schema (fetch_schema conn_sqlite table) with
  | Some schema =>
      [(drop_sql table, []);
       (create_sql table (parse_columns schema), [])]
      ++ map (fun idx => (index_sql table idx, []))
           (get_indexes conn_sqlite table)
      ++ map (insert_statement table (description conn_sqlite table))
           (planned_batches (rows_read table) batch_size)
  | None => []
  end.

(** The statements of the whole run. *)
Definition plan (batch_size : Z) : list statement :=
  flat_map (table_plan batch_size) (get_tables conn_sqlite).

End Plan.

(** The statements of lines 85-86, told by their first words. *)
Definition is_table_ddl (sql : str) : bool :=
  Text.startswith "DROP TABLE " sql || Text.startswith "CREATE TABLE " sql.

(** ** How a computation of the run acts on the world *)

Section Effect.

Variable value : Type.
Variable T : target value.

(** [effect m p]: from any world, [m] only adds calls and printed lines
    and closes nothing; when it returns, the statements it executed are
    exactly [p] and each call that raised was reported by one line;
    when an exception escapes, the statements executed so far are the
    first ones of [p]. *)
Definition effect (m : M T unit) (p : list (statement value)) : Prop :=
  forall w : world T,
  exists da dp,
    asked (fst (m w)) = asked w ++ da /\
    printed (fst (m w)) = printed w ++ dp /\
    mysql_closed (fst (m w)) = mysql_closed w /\
    sqlite_closed (fst (m w)) = sqlite_closed w /\
    match snd (m w) with
    | Some _ => executed da = p /\ failures da = reports dp
    | None => exists q, p = executed da ++ q
    end.

(** [m] never lets an exception escape. *)
Definition total (m : M T unit) : Prop :=
  forall w : world T, snd (m w) = Some tt.

End Effect.

(** The calls end with a table statement that raised: the last call is
    a statement of lines 85-86 that raised, or a commit that raised
    right after such a statement went through (line 87). *)
Definition stopped_at_table_statement {value : Type}
           (calls : list (call value * bool)) : bool :=
  match rev calls with
  | (Execute sql _, false) :: _ => is_table_ddl sql
  | (Commit _, false) :: (Execute sql _, true) :: _ => is_table_ddl sql
  | _ => false
  end.

(** The read of lines 104-105 raises for one of the tables that the
    run moves. *)
Definition read_raises {value : Type} (conn : sqlite_conn value) : Prop :=
  exists table,
    In table (get_tables conn) /\
    usable_schema (fetch_schema conn table) <> None /\
    select_all conn table = None.

(** The calls are those of a run that the read of lines 104-105 ended
    at one of its tables: the read of this table raises, and the
    statements executed are all those planned for the tables before it,
    then its own table statements and index statements. *)
Definition stopped_at_read {value : Type} (conn : sqlite_conn value)
           (batch_size : Z) (calls : list (call value * bool)) : Prop :=
  exists before table after,
    get_tables conn = before ++ table :: after /\
    usable_schema (fetch_schema conn table) <> None /\
    select_all conn table = None /\
    executed calls =
      flat_map (table_plan conn batch_size) before
        ++ table_plan conn batch_size table.

(** [m] lets an exception escape only at a table statement, or when
    [Q] holds and [m] has executed exactly the statements [p]. *)
Definition stops_exactly {value : Type} (T : target value) (Q : Prop)
           (m : M T unit) (p : list (statement value)) : Prop :=
  forall w : world T,
    snd (m w) = None ->
    stopped_at_table_statement (asked (fst (m w))) = true \/
    (Q /\ exists calls,
            asked (fst (m w)) = asked w ++ calls /\ executed calls = p).

(** [m] lets an exception escape only at a table statement, or when
    [Q] holds. *)
Definition stops_only {value : Type} (T : target value) (Q : Prop)
           (m : M T unit) : Prop :=
  forall w : world T,
    snd (m w) = None ->
    stopped_at_table_statement (asked (fst (m w))) = true \/ Q.

(** The quotient rounded up. *)
Definition ceil_div (n b : Z) : Z := ((n + b - 1) / b)%Z.

(** ** Notions of the specification

    The words the specification uses about texts, stated on their own
    so that the parsers can be compared with them. *)
Module Reading.

(** The text holds a parenthesized group: an opening parenthesis with
    a closing one somewhere after it. *)
Definition has_paren_group (s : str) : Prop :=
  exists pre mid post, s = pre ++ "("%char :: mid ++ ")"%char :: post.

Fixpoint has_paren_group_b (s : str) : bool :=
  match s with
  | [] => false
  | c :: s' =>
      (Ascii.eqb c "(" && Text.mem ")" s') || has_paren_group_b s'
  end.

(** The clauses of a column list as the comment of line 26 and the
    specification word them: the list is cut at the commas that stand
    outside every parenthesis. *)
Fixpoint clauses_from (depth : nat) (s : str) : list str :=
  match s with
  | [] => [[]]
  | c :: s' =>
      if Ascii.eqb c "," && (depth =? 0) then [] :: clauses_from depth s'
      else
        let depth' :=
          if Ascii.eqb c "(" then S depth
          else if Ascii.eqb c ")" then pred depth
          else depth in
        match clauses_from depth' s' with
        | piece :: rest => (c :: piece) :: rest
        | [] => [[c]]
        end
  end.

Definition top_level_clauses (list_text : str) : list str :=
  clauses_from 0 list_text.












End Reading.

(** The statement of a batch as the specification words it: one
    multi-row insert for the table, naming the columns, with one
    placeholder group per row of the batch and one placeholder per
    column in each group. *)
Module InsertSpec.

(** The items, each after the first preceded by a comma and a blank. *)
Definition comma_list (items : list str) : str :=
  match items with
  | [] => []
  | first :: others =>
      first ++ flat_map (fun item => ","%char :: " "%char :: item) others
  end.

Definition quoted_name (name : str) : str :=
  "`"%char :: name ++ ["`"%char].

Definition placeholder : str := ["%"%char; "s"%char].

Definition placeholder_group (arity : nat) : str :=
  "("%char :: comma_list (repeat placeholder arity) ++ [")"%char].

Definition multi_row_insert (table : str) (cols : list str)
           (nrows : nat) : str :=
  "INSERT INTO " ++ quoted_name table ++ " ("
    ++ comma_list (map quoted_name cols) ++ ") VALUES "
    ++ comma_list (repeat (placeholder_group (List.length cols)) nrows).

End InsertSpec.

(** ** Sample databases and targets *)

Module Sample.

(** A source with one user table of three rows and one index, the
    internal table [sqlite_sequence], an index without creation text,
    and a table whose creation text is NULL.  Cell values are texts. *)
Definition shop : sqlite_conn str :=
  {| sqlite_master :=
       [ {| m_type := "table"; m_name := "users"; m_tbl_name := "users";
            m_sql := Some ("CREATE TABLE users (id INT, name TEXT)" : str) |};
         {| m_type := "table"; m_name := "sqlite_sequence";
            m_tbl_name := "sqlite_sequence";
            m_sql := Some ("CREATE TABLE sqlite_sequence(name,seq)" : str) |};
         {| m_type := "index"; m_name := "ix"; m_tbl_name := "users";
            m_sql := Some ("CREATE INDEX ix ON users(name)" : str) |};
         {| m_type := "index"; m_name := "sqlite_autoindex_users_1";
            m_tbl_name := "users"; m_sql := None |};
         {| m_type := "table"; m_name := "ghost"; m_tbl_name := "ghost";
            m_sql := None |} ];
     select_all := fun table =>
       if str_eqb table "users"
       then Some [ ["1" : str; "a" : str]; ["2" : str; "b" : str];
                   ["3" : str; "c" : str] ]
       else if str_eqb table "ghost" || str_eqb table "sqlite_sequence"
       then Some []
       else None;
     description := fun table =>
       if str_eqb table "users" then ["id" : str; "name" : str] else [] |}.

(** A source whose only table declares its columns without types, so
    that no column is parsed. *)
Definition untyped : sqlite_conn str :=
  {| sqlite_master :=
       [ {| m_type := "table"; m_name := "t"; m_tbl_name := "t";
            m_sql := Some ("CREATE TABLE t (a, b)" : str) |} ];
     select_all := fun table => if str_eqb table "t" then Some [] else None;
     description := fun _ => [] |}.

(** A source whose second table has a backquote in its name: the text
    of line 104 for it is refused by SQLite, and the read raises. *)
Definition quoted : sqlite_conn str :=
  {| sqlite_master :=
       [ {| m_type := "table"; m_name := "a"; m_tbl_name := "a";
            m_sql := Some ("CREATE TABLE a (x INT)" : str) |};
         {| m_type := "table"; m_name := "we`ird"; m_tbl_name := "we`ird";
            m_sql := Some ("CREATE TABLE [we`ird] (y TEXT)" : str) |};
         {| m_type := "table"; m_name := "z"; m_tbl_name := "z";
            m_sql := Some ("CREATE TABLE z (k INT)" : str) |} ];
     select_all := fun table =>
       if str_eqb table "a" then Some [ ["1" : str] ]
       else if str_eqb table "z" then Some [ ["2" : str] ]
       else None;
     description := fun table =>
       if str_eqb table "a" then ["x" : str]
       else if str_eqb table "z" then ["k" : str] else [] |}.

(** A target that takes everything. *)
Definition willing : target str :=
  {| tstate := unit;
     execute := fun s _ _ => (s, true);
     commit := fun s => (s, true) |}.

(** A target that takes the table statements and refuses every index
    statement and every insert. *)
Definition grudging : target str :=
  {| tstate := unit;
     execute := fun s sql _ => (s, is_table_ddl sql);
     commit := fun s => (s, true) |}.

(** A target that refuses a table with an empty column list. *)
Definition strict : target str :=
  {| tstate := unit;
     execute := fun s sql _ => (s, negb (Text.contains " ();" sql));
     commit := fun s => (s, true) |}.

End Sample.

(** ** The column pattern read as a scan

    What the pattern of line 33 comes to when it is followed from left
    to right: none of its choices is ever undone with success. *)
Module Scan.

Definition open_quote (c : ascii) : bool :=
  Text.mem c ["`"%char; dquote; "["%char].

Definition close_quote (c : ascii) : bool :=
  Text.mem c ["`"%char; dquote; "]"%char].

(** The characters of a type token. *)
Definition type_char (c : ascii) : bool :=
  negb (Text.is_space c || Ascii.eqb c ",").

(** The rest of the pattern of line 33 after the name: closing quote,
    spaces and type token. *)
Definition after_name : Re.regex :=
  Re.Cat (Re.Opt (Re.Chr close_quote))
    (Re.Cat (Re.Plus (Re.Chr Text.is_space))
       (Re.Group 2 (Re.Plus (Re.Chr type_char)))).

(** The five target types. *)
Definition target_types : list str :=
  ["INT" : str; "TEXT" : str; "BLOB" : str; "DOUBLE" : str;
   "DATETIME" : str].

(** An optional character of a class: nothing, or one such character. *)
Definition optional (p : ascii -> bool) (q : str) : Prop :=
  q = [] \/ exists c, q = [c] /\ p c = true.

(** The text without its first character when this one is in the class. *)
Definition drop_if (p : ascii -> bool) (s : str) : str :=
  match s with
  | c :: s' => if p c then s' else s
  | [] => []
  end.

(** The longest run of characters of the class at the start. *)
Fixpoint take_while (p : ascii -> bool) (s : str) : str :=
  match s with
  | c :: s' => if p c then c :: take_while p s' else []
  | [] => []
  end.

Definition starts_with_class (p : ascii -> bool) (s : str) : bool :=
  match s with
  | c :: _ => p c
  | [] => false
  end.

(** The name and the type token of a clause, with what follows the
    token. *)
Definition column_scan (line : str) : option (str * str * str) :=
  let s1 := drop_if open_quote line in
  let s2 := Text.lstrip_by Text.is_word s1 in
  let s3 := drop_if close_quote s2 in
  let s4 := Text.lstrip_by Text.is_space s3 in
  if starts_with_class Text.is_word s1
     && starts_with_class Text.is_space s3
     && starts_with_class type_char s4
  then Some (take_while Text.is_word s1, take_while type_char s4,
             Text.lstrip_by type_char s4)
  else None.

(** A well-formed column: a name of word characters and one of the
    five target types. *)
Definition well_formed (col : str * str) : Prop :=
  fst col <> [] /\ forallb Text.is_word (fst col) = true /\
  In (snd col) target_types.

(** A clause that line 27 leaves whole: its parentheses are balanced
    from the given depth, it has no comma outside them, and after each
    comma inside them the first parenthesis is a closing one. *)
Fixpoint clause_scan (depth : nat) (s : str) : bool :=
  match s with
  | [] => depth =? 0
  | c :: s' =>
      if Ascii.eqb c "(" then clause_scan (S depth) s'
      else if Ascii.eqb c ")" then
        match depth with
        | O => false
        | S d => clause_scan d s'
        end
      else if Ascii.eqb c "," then
        (0 <? depth) && closes_first s' && clause_scan depth s'
      else clause_scan depth s'
  end.

(** Such a clause, which moreover does not start with a space. *)
Definition plain_clause (c : str) : Prop :=
  clause_scan 0 c = true /\ starts_with_class Text.is_space c = false.

(** A column clause: a name of word characters, a blank, a type
    token, and what follows it (constraints and the like), starting with
    a space if there is any; the whole is a clause that line 27 leaves
    whole and that line 31 does not skip. *)
Definition column_clause (name ty rest : str) : str :=
  name ++ " " ++ ty ++ rest.

Definition typed_clause (t : str * str * str) : Prop :=
  let '(name, ty, rest) := t in
  name <> [] /\ forallb Text.is_word name = true /\
  ty <> [] /\ forallb type_char ty = true /\
  starts_with_class type_char rest = false /\
  clause_scan 0 (column_clause name ty rest) = true /\
  skipped_clause (Text.strip (column_clause name ty rest)) = false.

Definition render_clause (t : str * str * str) : str :=
  let '(name, ty, rest) := t in column_clause name ty rest.

Definition parsed_column (t : str * str * str) : str * str :=
  let '(name, ty, _) := t in (name, sqlite_type_to_mysql ty).

(** What follows the first of several clauses joined by [sep]. *)
Definition join_tail (sep : str) (rest : list str) : str :=
  match rest with
  | [] => []
  | _ :: _ => sep ++ Text.join sep rest
  end.

End Scan.

(** ** Reading the calls and the printed lines *)

(** The numbers of the printed lines that announce an inserted batch. *)
Definition inserted_numbers (lines : list line) : list Z :=
  flat_map (fun l => match l with
                     | BatchInserted number _ => [number]
                     | _ => []
                     end) lines.

Section Traces.

Variable value : Type.

(** The calls are followed from left to right, remembering whether
    the last one was a statement that went through; a commit is in
    order only right after such a statement.  [None] when a commit is
    out of order. *)
Fixpoint track (prev : bool) (calls : list (call value * bool))
  : option bool :=
  match calls with
  | [] => Some prev
  | (Execute _ _, ok) :: rest => track ok rest
  | (Commit _, _) :: rest => if prev then track false rest else None
  end.

Definition commits_in_order (calls : list (call value * bool)) : bool :=
  match track false calls with
  | Some _ => true
  | None => false
  end.

(** [m] keeps the commits in order. *)
Definition in_order (T : target value) (m : M T unit) : Prop :=
  forall (w : world T) (p : bool),
    track false (asked w) = Some p ->
    exists q, track false (asked (fst (m w))) = Some q.

(** [m] returns, and the batch numbers it announces are [numbers]. *)
Definition announces (T : target value) (m : M T unit) (numbers : list Z)
  : Prop :=
  forall w : world T,
    snd (m w) = Some tt /\
    exists lines,
      printed (fst (m w)) = printed w ++ lines /\
      inserted_numbers lines = numbers.

End Traces.

(** The number of placeholders of a statement: each one is written with
    one percent sign. *)
Definition placeholders (sql : str) : nat :=
  count_occ ascii_dec sql "%"%char.

(** The characters stripped from index columns do not stand at the
    ends of the text. *)
Definition unquoted (col : str) : Prop :=
  Scan.starts_with_class (fun c => Text.mem c quote_chars) col = false /\
  Scan.starts_with_class (fun c => Text.mem c quote_chars) (rev col) = false.

(** * Properties *)

(** ** Text lemmas *)

Module TextFacts.
Import Text.

Lemma startswith_app (p rest : str) : startswith p (p ++ rest) = true.
Proof.
  induction p as [|a p IH]; simpl; [reflexivity|].
  now rewrite Ascii.eqb_refl, IH.
Qed.

Lemma startswith_inv (p s : str) :
  startswith p s = true -> exists rest, s = p ++ rest.
Proof.
  revert s; induction p as [|a p IH]; intros s H.
  - now exists s.
  - destruct s as [|b s]; simpl in H; [discriminate|].
    apply andb_true_iff in H as [Hab Hps].
    apply Ascii.eqb_eq in Hab; subst b.
    destruct (IH _ Hps) as [rest ->].
    now exists rest.
Qed.

Lemma startswith_iff (p s : str) :
  startswith p s = true <-> exists rest, s = p ++ rest.
Proof.
  split; [apply startswith_inv|].
  intros [rest ->]; apply startswith_app.
Qed.

Lemma contains_iff (needle hay : str) :
  contains needle hay = true <->
  exists pre post, hay = pre ++ needle ++ post.
Proof.
  induction hay as [|c hay IH]; simpl.
  - rewrite orb_false_r, startswith_iff. split.
    + intros [rest H]. exists [], rest. exact H.
    + intros (pre & post & H).
      destruct pre; [now exists post|discriminate].
  - rewrite orb_true_iff, startswith_iff, IH. split.
    + intros [[rest H] | (pre & post & H)].
      * exists [], rest. exact H.
      * exists (c :: pre), post. simpl. now rewrite H.
    + intros (pre & post & H). destruct pre as [|a pre].
      * left. now exists post.
      * right. exists pre, post. simpl in H. now injection H.
Qed.

Lemma upper_app (a b : str) : upper (a ++ b) = upper a ++ upper b.
Proof. apply map_app. Qed.







End TextFacts.

(** ** The type mapper *)

Module MapTypeFacts.
Import MapTypeSpec.





End MapTypeFacts.



(** ** Facts about the matcher *)

Module ReFacts.
Import Re.

(** The equations of [exec], one per construct. *)
Section Equations.
Variable R : Type.
Variable k : str -> captures -> option R.

Lemma exec_chr (p : ascii -> bool) (s : str) (caps : captures) :
  exec (Chr p) s caps k =
  match s with
  | c :: s' => if p c then k s' caps else None
  | [] => None
  end.
Proof. reflexivity. Qed.

Lemma exec_cat (r1 r2 : regex) (s : str) (caps : captures) :
  exec (Cat r1 r2) s caps k =
  exec r1 s caps (fun s' caps' => exec r2 s' caps' k).
Proof. reflexivity. Qed.

Lemma exec_opt (r : regex) (s : str) (caps : captures) :
  exec (Opt r) s caps k =
  match exec r s caps k with
  | Some x => Some x
  | None => k s caps
  end.
Proof. reflexivity. Qed.

Lemma exec_group (n : nat) (r : regex) (s : str) (caps : captures) :
  exec (Group n r) s caps k =
  exec r s caps
    (fun s' caps' =>
       k s' ((n, firstn (List.length s - List.length s') s) :: caps')).
Proof. reflexivity. Qed.

Lemma exec_neglook (r : regex) (s : str) (caps : captures) :
  exec (NegLook r) s caps k =
  match exec r s caps (fun _ _ => Some tt) with
  | Some _ => None
  | None => k s caps
  end.
Proof. reflexivity. Qed.

End Equations.

Section Star.
Variable R : Type.
Variable p : ascii -> bool.
Variable k : str -> captures -> option R.

Lemma star_loop_chr (fuel : nat) (s : str) (caps : captures) :
  List.length s <= fuel ->
  star_loop (exec (Chr p)) k fuel s caps = star_chr p k caps s.
Proof.
  revert fuel; induction s as [|c s IH]; intros fuel Hlen.
  - destruct fuel; reflexivity.
  - destruct fuel as [|fuel]; simpl in Hlen; [lia|].
    simpl. destruct (p c); [|reflexivity].
    assert (Hlt : (List.length s <? S (List.length s)) = true)
      by (apply Nat.ltb_lt; lia).
    rewrite Hlt, IH by lia. reflexivity.
Qed.

Lemma exec_star_chr (s : str) (caps : captures) :
  exec (Star (Chr p)) s caps k = star_chr p k caps s.
Proof. simpl. now apply star_loop_chr. Qed.

(** A success of the star comes from the continuation, after some
    run of characters of the class. *)
Lemma star_chr_some (s : str) (caps : captures) (x : R) :
  star_chr p k caps s = Some x ->
  exists run rest,
    s = run ++ rest /\ forallb p run = true /\ k rest caps = Some x.
Proof.
  induction s as [|c s IH]; simpl; intros H.
  - now exists [], [].
  - destruct (p c) eqn:Hc.
    + destruct (star_chr p k caps s) as [y|] eqn:E.
      * injection H as ->.
        destruct (IH eq_refl) as (run & rest & -> & Hrun & Hk).
        exists (c :: run), rest. simpl. now rewrite Hc, Hrun.
      * now exists [], (c :: s).
    + now exists [], (c :: s).
Qed.

(** When the continuation refuses every text that starts with a
    character of the class, only the longest run is left. *)
Lemma star_chr_greedy (s : str) (caps : captures) :
  (forall c rest, p c = true -> k (c :: rest) caps = None) ->
  star_chr p k caps s = k (Text.lstrip_by p s) caps.
Proof.
  intros Hk. induction s as [|c s IH]; simpl; [reflexivity|].
  destruct (p c) eqn:Hc; [|reflexivity].
  rewrite IH. destruct (k (Text.lstrip_by p s) caps); [reflexivity|].
  now apply Hk.
Qed.

End Star.

End ReFacts.

(** ** The column parser *)

Module ParseFacts.
Import Re ReFacts Reading.

Lemma mem_iff (c : ascii) (s : str) : Text.mem c s = true <-> In c s.
Proof.
  unfold Text.mem. rewrite existsb_exists. split.
  - intros (x & Hin & Hx). apply Ascii.eqb_eq in Hx. now subst.
  - intros Hin. exists c. split; [exact Hin | apply Ascii.eqb_refl].
Qed.

Lemma has_paren_group_iff (s : str) :
  has_paren_group_b s = true <-> has_paren_group s.
Proof.
  unfold has_paren_group. induction s as [|c s IH]; simpl.
  - split; [discriminate|].
    intros (pre & mid & post & H). destruct pre; discriminate.
  - rewrite orb_true_iff, andb_true_iff, IH, mem_iff, Ascii.eqb_eq.
    split.
    + intros [[-> Hin] | (pre & mid & post & ->)].
      * apply in_split in Hin as (mid & post & ->).
        now exists [], mid, post.
      * now exists (c :: pre), mid, post.
    + intros (pre & mid & post & H). destruct pre as [|a pre].
      * injection H as -> ->. left. split; [reflexivity|].
        apply in_or_app. right. now left.
      * injection H as -> ->. right. now exists pre, mid, post.
Qed.

Lemma no_paren_group (s : str) :
  has_paren_group_b s = false -> ~ has_paren_group s.
Proof.
  intros Hb H. apply has_paren_group_iff in H. congruence.
Qed.

Lemma match_at_column_list_inv (s : str) (x : str * captures) :
  match_at re_column_list s = Some x ->
  exists mid post, s = "("%char :: mid ++ ")"%char :: post.
Proof.
  unfold match_at, re_column_list, lit.
  rewrite exec_cat, exec_chr.
  destruct s as [|c s]; [discriminate|].
  destruct (Ascii.eqb_spec "("%char c) as [<-|_]; [|discriminate].
  rewrite exec_cat, exec_group, exec_star_chr.
  intros H. apply star_chr_some in H as (run & rest & -> & _ & H).
  rewrite exec_chr in H.
  destruct rest as [|d rest]; [discriminate|].
  destruct (Ascii.eqb_spec ")"%char d) as [<-|_]; [|discriminate].
  now exists run, rest.
Qed.

Lemma search_column_list_none (s : str) :
  ~ has_paren_group s -> re_search re_column_list s = None.
Proof.
  induction s as [|c s IH]; intros Hno; simpl.
  - destruct (match_at re_column_list []) as [x|] eqn:E; [|reflexivity].
    apply match_at_column_list_inv in E as (mid & post & E).
    discriminate.
  - destruct (match_at re_column_list (c :: s)) as [x|] eqn:E.
    + exfalso. apply Hno.
      apply match_at_column_list_inv in E as (mid & post & E).
      exists [], mid, post. exact E.
    + apply IH. intros (pre & mid & post & ->).
      apply Hno. now exists (c :: pre), mid, post.
Qed.

End ParseFacts.

(** C8.  On a text with no parenthesized group, [parse_columns] returns
    the empty sequence; it raises nothing. *)
Theorem parse_columns_without_group (schema : str) :
  ~ Reading.has_paren_group schema -> parse_columns schema = [].
Proof.
  intros Hno. unfold parse_columns, column_clauses.
  now rewrite ParseFacts.search_column_list_none.
Qed.

Lemma parse_columns_without_group_witness :
  ~ Reading.has_paren_group "CREATE TABLE t )x(" /\
  parse_columns "CREATE TABLE t )x(" = [].
Proof.
  assert (H : ~ Reading.has_paren_group "CREATE TABLE t )x(")
    by (apply ParseFacts.no_paren_group; reflexivity).
  split; [exact H | exact (parse_columns_without_group H)].
Defined.

(** C4, as amended.  On the text (a INT, b DECIMAL(10,2), c TEXT) the
    column list is cut into exactly three clauses, the clause of b being
    left whole across the comma of DECIMAL(10,2); [parse_columns]
    returns three columns, a, b and c in this order; and the type token
    taken from the clause of b stops before that comma: it is DECIMAL(10,
    which the mapper sends to TEXT. *)
Theorem parse_columns_decimal :
  column_clauses "(a INT, b DECIMAL(10,2), c TEXT)" =
    Some ["a INT" : str; "b DECIMAL(10,2)" : str; "c TEXT" : str] /\
  parse_columns "(a INT, b DECIMAL(10,2), c TEXT)" =
    [("a" : str, "INT" : str); ("b" : str, "TEXT" : str);
     ("c" : str, "TEXT" : str)] /\
  column_tokens (Text.strip "b DECIMAL(10,2)") =
    Some ("b" : str, "DECIMAL(10" : str).
Proof. repeat split. Qed.

(** C4 as the specification states it does not hold: no clause of
    (a INT, b DECIMAL(10,2), c TEXT) yields the type token
    DECIMAL(10,2) for b. *)
Lemma decimal_type_token_not_intact :
  exists parts,
    column_clauses "(a INT, b DECIMAL(10,2), c TEXT)" = Some parts /\
    ~ exists part,
        In part parts /\
        column_tokens (Text.strip part) =
          Some ("b" : str, "DECIMAL(10,2)" : str).
Proof.
  eexists. split; [reflexivity|].
  intros (part & Hin & Htok). simpl in Hin.
  destruct Hin as [<- | [<- | [<- | []]]]; vm_compute in Htok;
    discriminate Htok.
Qed.

(** C6.  On (a INT, PRIMARY KEY(a)) the constraint clause is dropped
    and the single column a is returned.  But a constraint clause is
    not always dropped whole.  The column list below has two clauses,
    the second led by CONSTRAINT.  Line 27 cuts it into three pieces,
    because the comma inside the parenthesis of CHECK is followed by an
    opening parenthesis before any closing one; the first piece of the
    constraint is skipped on its keyword, and what follows the comma is
    read as a column b. *)
Theorem constraint_clause_cut_at_nested_comma :
  Reading.top_level_clauses
    "a INT, CONSTRAINT c CHECK (coalesce(a, b + length(c)) > 0)" =
    ["a INT" : str;
     " CONSTRAINT c CHECK (coalesce(a, b + length(c)) > 0)" : str] /\
  column_clauses
    "CREATE TABLE t (a INT, CONSTRAINT c CHECK (coalesce(a, b + length(c)) > 0))" =
    Some ["a INT" : str; "CONSTRAINT c CHECK (coalesce(a" : str;
          "b + length(c)) > 0)" : str] /\
  parse_columns
    "CREATE TABLE t (a INT, CONSTRAINT c CHECK (coalesce(a, b + length(c)) > 0))" =
    [("a" : str, "INT" : str); ("b" : str, "TEXT" : str)] /\
  parse_columns "(a INT, PRIMARY KEY(a))" = [("a" : str, "INT" : str)].
Proof. repeat split. Qed.

(** ** The clause separator *)

Module SplitFacts.
Import Re ReFacts.

Lemma star_chr_ext (R : Type) (p : ascii -> bool)
      (k1 k2 : str -> captures -> option R) (caps : captures) (s : str) :
  (forall s' caps', k1 s' caps' = k2 s' caps') ->
  star_chr p k1 caps s = star_chr p k2 caps s.
Proof.
  intros Hk. induction s as [|c s IH]; simpl; [apply Hk|].
  now rewrite IH, Hk.
Qed.

(** A continuation that refuses a text according to a test that the
    characters of the class do not change, and accepts otherwise. *)
Lemma star_chr_guarded (R : Type) (p : ascii -> bool) (bad : str -> bool)
      (f : str -> captures -> R) (caps : captures) (s : str) :
  (forall c u, p c = true -> bad (c :: u) = bad u) ->
  star_chr p (fun s' caps' => if bad s' then None else Some (f s' caps'))
    caps s =
  if bad s then None else Some (f (Text.lstrip_by p s) caps).
Proof.
  intros Hbad. induction s as [|c s IH]; simpl; [reflexivity|].
  destruct (p c) eqn:Hc; [|reflexivity].
  rewrite IH, (Hbad c s Hc). now destruct (bad s).
Qed.

Lemma space_not_paren (c : ascii) :
  Text.is_space c = true -> not_paren c = true.
Proof. destruct c as [[] [] [] [] [] [] [] []]; now compute. Qed.

Lemma closes_first_skip (c : ascii) (u : str) :
  not_paren c = true -> closes_first (c :: u) = closes_first u.
Proof. intros Hc. unfold closes_first. simpl. now rewrite Hc. Qed.

(** The lookahead of the separator pattern. *)
Lemma lookahead_closes (s : str) (caps : captures) :
  exec (Cat (Star (Chr not_paren)) (lit ")")) s caps (fun _ _ => Some tt) =
  if closes_first s then Some tt else None.
Proof.
  rewrite exec_cat, exec_star_chr, star_chr_greedy.
  - unfold lit. rewrite exec_chr. unfold closes_first.
    destruct (Text.lstrip_by not_paren s) as [|c u]; [reflexivity|].
    destruct (Ascii.eqb_spec ")"%char c) as [<-|Hc]; [reflexivity|].
    destruct c as [[] [] [] [] [] [] [] []]; try reflexivity.
    now contradiction Hc.
  - intros c rest Hc. unfold lit. rewrite exec_chr.
    destruct (Ascii.eqb_spec ")"%char c) as [<-|_];
      [discriminate | reflexivity].
Qed.

(** A comma separates two clauses exactly when the first parenthesis
    after it, if there is one, is an opening one; the separator then
    takes the comma and the spaces that follow. *)
Lemma separator_match (s : str) :
  match_at re_clause_comma s =
  match s with
  | ","%char :: t =>
      if closes_first t then None
      else Some (Text.lstrip_by Text.is_space t, [])
  | _ => None
  end.
Proof.
  unfold match_at, re_clause_comma, lit.
  rewrite exec_cat, exec_chr.
  destruct s as [|c t]; [reflexivity|].
  destruct (Ascii.eqb_spec ","%char c) as [<-|Hc].
  2:{ destruct c as [[] [] [] [] [] [] [] []]; try reflexivity.
      now contradiction Hc. }
  rewrite exec_cat, exec_star_chr.
  rewrite (@star_chr_ext _ Text.is_space _
             (fun s' caps' =>
                if closes_first s' then None else Some (s', caps'))).
  - apply star_chr_guarded.
    intros c u Hc. apply closes_first_skip. now apply space_not_paren.
  - intros s' caps'. rewrite exec_neglook.
    fold (lit ")"). rewrite lookahead_closes.
    now destruct (closes_first s').
Qed.

End SplitFacts.

(** ** The index parser *)

Module IndexFacts.
Import Re ReFacts Reading.



Lemma firstn_exact (n : nat) (g rest : str) :
  n = List.length g -> firstn n (g ++ rest) = g.
Proof.
  intros ->. replace (List.length g) with (List.length g + 0) by lia.
  rewrite firstn_app_2. simpl. apply app_nil_r.
Qed.

Lemma firstn_group (g rest : str) :
  firstn (List.length (g ++ rest) - List.length rest) (g ++ rest) = g.
Proof. apply firstn_exact. rewrite length_app. lia. Qed.







Lemma re_search_eq (r : regex) (s : str) :
  re_search r s =
  match match_at r s with
  | Some (_, caps) => Some caps
  | None =>
      match s with
      | [] => None
      | _ :: s' => re_search r s'
      end
  end.
Proof. destruct s; reflexivity. Qed.



End IndexFacts.

Module IndexStepFacts.
Import Reading.

(** The loop of lines 48-54 adds to the list what each row gives on
    its own. *)
Lemma step_appends (acc : list index_descr) (row : str * str) :
  get_indexes_step acc row = acc ++ get_indexes_step [] row.
Proof.
  destruct row as [name sql]. unfold get_indexes_step.
  destruct (Re.re_search re_index_columns sql) as [m|];
    [|now rewrite app_nil_r].
  destruct (Re.group m 1); [reflexivity | now rewrite app_nil_r].
Qed.

Lemma fold_steps (rows : list (str * str)) (acc : list index_descr) :
  fold_left get_indexes_step rows acc =
  acc ++ flat_map (get_indexes_step []) rows.
Proof.
  revert acc; induction rows as [|row rows IH]; intros acc; simpl.
  - now rewrite app_nil_r.
  - now rewrite IH, step_appends, app_assoc.
Qed.



End IndexStepFacts.

(** The two strips of line 53, compared with the cleaning of the
    specification. *)
Module CleanFacts.
Import Reading.













End CleanFacts.




(** ** Ranges, slices and batches *)

Module BatchFacts.

Open Scope Z_scope.

(** For a positive step the range is the arithmetic progression from
    [i], with as many terms as the rounded-up quotient says. *)
Lemma range_from_up (fuel : nat) (i stop step : Z) :
  0 < step -> (Z.to_nat (stop - i) <= fuel)%nat ->
  range_from fuel i stop step =
  map (fun j => i + Z.of_nat j * step)
    (seq 0 (Z.to_nat (ceil_div (stop - i) step))).
Proof.
  intros Hstep. revert i. induction fuel as [|fuel IH]; intros i Hfuel.
  - assert (Hle : stop - i <= 0) by lia.
    assert (Hq : ceil_div (stop - i) step <= 0).
    { unfold ceil_div.
      assert ((stop - i + step - 1) / step < 1)
        by (apply Z.div_lt_upper_bound; lia).
      lia. }
    replace (Z.to_nat (ceil_div (stop - i) step)) with 0%nat by lia.
    reflexivity.
  - simpl range_from.
    replace (step <? 0) with false by (symmetry; apply Z.ltb_ge; lia).
    replace (0 <? step) with true by (symmetry; apply Z.ltb_lt; lia).
    rewrite andb_true_l, andb_false_l, orb_false_r.
    destruct (Z.ltb_spec i stop) as [Hlt|Hge].
    + rewrite IH by lia.
      assert (Hq : ceil_div (stop - i) step =
                   ceil_div (stop - (i + step)) step + 1).
      { unfold ceil_div.
        replace (stop - i + step - 1)
          with ((stop - (i + step) + step - 1) + 1 * step) by lia.
        now rewrite Z.div_add by lia. }
      assert (Hnn : 0 <= ceil_div (stop - (i + step)) step).
      { unfold ceil_div. apply Z.div_pos; lia. }
      rewrite Hq.
      replace (Z.to_nat (ceil_div (stop - (i + step)) step + 1))
        with (S (Z.to_nat (ceil_div (stop - (i + step)) step))) by lia.
      simpl seq. simpl map. f_equal; [lia|].
      rewrite <- seq_shift, map_map.
      apply map_ext. intros j. lia.
    + assert (Hq : ceil_div (stop - i) step <= 0).
      { unfold ceil_div.
        assert ((stop - i + step - 1) / step < 1)
          by (apply Z.div_lt_upper_bound; lia).
        lia. }
      replace (Z.to_nat (ceil_div (stop - i) step)) with 0%nat by lia.
      reflexivity.
Qed.

Lemma py_range_up (n step : Z) :
  0 < step ->
  py_range 0 n step =
  Some (map (fun j => Z.of_nat j * step)
          (seq 0 (Z.to_nat (ceil_div n step)))).
Proof.
  intros Hstep. unfold py_range.
  replace (step =? 0) with false by (symmetry; apply Z.eqb_neq; lia).
  rewrite range_from_up by lia.
  now rewrite Z.sub_0_r.
Qed.

(** A slice with bounds that are not negative. *)
Lemma slice_firstn_skipn (A : Type) (l : list A) (i b : Z) :
  0 <= i -> 0 <= b ->
  slice l i (i + b) = firstn (Z.to_nat b) (skipn (Z.to_nat i) l).
Proof.
  intros Hi Hb. unfold slice, clamp.
  replace (i <? 0) with false by (symmetry; apply Z.ltb_ge; lia).
  replace (i + b <? 0) with false by (symmetry; apply Z.ltb_ge; lia).
  set (n := Z.of_nat (List.length l)).
  destruct (Z.le_gt_cases i n) as [Hin|Hin].
  - replace (Z.to_nat (Z.min i n)) with (Z.to_nat i) by lia.
    destruct (Z.le_gt_cases (i + b) n) as [Hbn|Hbn].
    + f_equal. lia.
    + replace (Z.to_nat (Z.min (i + b) n) - Z.to_nat i)%nat
        with (List.length (skipn (Z.to_nat i) l))
        by (rewrite length_skipn; lia).
      rewrite firstn_all. symmetry. apply firstn_all2.
      rewrite length_skipn. lia.
  - subst n.
    replace (Z.to_nat (Z.min (i + b) (Z.of_nat (List.length l)))
             - Z.to_nat (Z.min i (Z.of_nat (List.length l))))%nat
      with 0%nat by lia.
    rewrite (skipn_all2 l (n := Z.to_nat i)) by lia.
    now rewrite firstn_nil.
Qed.

Lemma ceil_div_bounds (n b : Z) :
  0 < b -> (ceil_div n b - 1) * b < n <= ceil_div n b * b.
Proof.
  intros Hb. unfold ceil_div.
  pose proof (Z.div_mod (n + b - 1) b ltac:(lia)) as Hdm.
  pose proof (Z.mod_pos_bound (n + b - 1) b Hb) as Hr.
  nia.
Qed.

Lemma ceil_div_nonneg (n b : Z) : 0 < b -> 0 <= n -> 0 <= ceil_div n b.
Proof. intros Hb Hn. unfold ceil_div. apply Z.div_pos; lia. Qed.

Section Chunks.

Variable A : Type.

Lemma chunk_length (b : nat) (l : list A) (j : nat) :
  List.length (chunk b l j) = Nat.min b (List.length l - j * b).
Proof. unfold chunk. now rewrite length_firstn, length_skipn. Qed.

Lemma chunk_shift (b : nat) (l : list A) (j : nat) :
  chunk b l (S j) = chunk b (skipn b l) j.
Proof.
  unfold chunk. rewrite skipn_skipn. f_equal. f_equal. simpl. lia.
Qed.

Lemma chunks_concat (b n : nat) (l : list A) :
  (List.length l <= n * b)%nat ->
  List.concat (map (chunk b l) (seq 0 n)) = l.
Proof.
  revert l; induction n as [|n IH]; intros l Hlen.
  - destruct l; [reflexivity | simpl in Hlen; lia].
  - cbn [seq map List.concat]. rewrite <- seq_shift, map_map.
    rewrite (map_ext _ _ (chunk_shift b l)).
    rewrite IH by (rewrite length_skipn; simpl in Hlen; lia).
    unfold chunk. simpl. apply firstn_skipn.
Qed.

End Chunks.

Lemma planned_batches_chunks (value : Type) (rows : list (list value))
      (batch_size : Z) :
  0 < batch_size ->
  planned_batches rows batch_size =
  map (chunk (Z.to_nat batch_size) rows)
    (seq 0 (Z.to_nat (ceil_div (Z.of_nat (List.length rows)) batch_size))).
Proof.
  intros Hb. unfold planned_batches. rewrite py_range_up by exact Hb.
  rewrite map_map. apply map_ext. intros j.
  rewrite slice_firstn_skipn by lia. unfold chunk.
  f_equal. f_equal. rewrite Z2Nat.inj_mul by lia. now rewrite Nat2Z.id.
Qed.


End BatchFacts.

(** ** The run *)

Module RunFacts.

Section Steps.

Variable value : Type.
Variable T : target value.

Lemma effect_ret : effect (@ret _ T unit tt) [].
Proof.
  intros w. exists [], []. simpl. rewrite !app_nil_r. repeat split.
Qed.

Lemma effect_raise (p : list (statement value)) :
  effect (@raise _ T unit) p.
Proof.
  intros w. exists [], []. simpl. rewrite !app_nil_r. repeat split.
  now exists p.
Qed.

Lemma effect_print (l : line) :
  reports [l] = 0 -> effect (@print _ T l) [].
Proof.
  intros Hl w. exists [], [l]. simpl. rewrite app_nil_r.
  repeat split. now rewrite Hl.
Qed.

Lemma effect_execute (sql : str) (params : list value) :
  effect (@cursor_execute _ T sql params) [(sql, params)].
Proof.
  intros w. unfold cursor_execute.
  destruct (execute T (server w) sql params) as [s ok].
  exists [(Execute sql params, ok)], []. simpl. rewrite app_nil_r.
  repeat split. destruct ok; simpl.
  - now split.
  - now exists [].
Qed.

Lemma effect_commit : effect (@conn_commit _ T) [].
Proof.
  intros w. unfold conn_commit.
  destruct (commit T (server w)) as [s ok].
  exists [(Commit value, ok)], []. simpl. rewrite app_nil_r.
  repeat split. destruct ok; simpl.
  - now split.
  - now exists [].
Qed.

Lemma executed_app (a b : list (call value * bool)) :
  executed (a ++ b) = executed a ++ executed b.
Proof. apply flat_map_app. Qed.

Lemma failures_app (a b : list (call value * bool)) :
  failures (a ++ b) = failures a + failures b.
Proof. unfold failures. now rewrite filter_app, length_app. Qed.

Lemma reports_app (a b : list line) : reports (a ++ b) = reports a + reports b.
Proof. unfold reports. now rewrite filter_app, length_app. Qed.

Lemma effect_bind (m1 m2 : M T unit) (p1 p2 : list (statement value)) :
  effect m1 p1 -> effect m2 p2 -> effect (bind m1 (fun _ => m2)) (p1 ++ p2).
Proof.
  intros H1 H2 w. unfold bind.
  destruct (H1 w) as (da1 & dp1 & Ha1 & Hp1 & Hm1 & Hs1 & Hr1).
  destruct (m1 w) as [w1 [u|]]; simpl in *.
  - destruct (H2 w1) as (da2 & dp2 & Ha2 & Hp2 & Hm2 & Hs2 & Hr2).
    exists (da1 ++ da2), (dp1 ++ dp2).
    rewrite Ha2, Hp2, Hm2, Hs2, Ha1, Hp1, !app_assoc.
    repeat split; trivial.
    destruct Hr1 as [He1 Hf1].
    destruct (snd (m2 w1)).
    + destruct Hr2 as [He2 Hf2].
      rewrite executed_app, failures_app, reports_app. split; congruence.
    + destruct Hr2 as [q ->]. exists q.
      now rewrite executed_app, He1, app_assoc.
  - exists da1, dp1. repeat split; trivial.
    destruct Hr1 as [q ->]. exists (q ++ p2). now rewrite app_assoc.
Qed.

Lemma effect_for_each (A : Type) (body : A -> M T unit)
      (f : A -> list (statement value)) (l : list A) :
  (forall x, effect (body x) (f x)) ->
  effect (for_each l body) (flat_map f l).
Proof.
  intros Hbody. induction l as [|x l IH]; simpl.
  - apply effect_ret.
  - now apply effect_bind.
Qed.

(** Lines 98-101: the index statement is tried once, and a failure is
    caught and reported. *)
Lemma effect_try_index (sql name : str) :
  effect (try_except (@cursor_execute _ T sql []) (print (IndexWarning name)))
    [(sql, [])].
Proof.
  intros w. unfold try_except, cursor_execute.
  destruct (execute T (server w) sql []) as [s ok].
  destruct ok; simpl.
  - exists [(Execute sql [], true)], []. rewrite app_nil_r.
    repeat split.
  - exists [(Execute sql [], false)], [IndexWarning name].
    repeat split.
Qed.

(** Lines 114-118: the insert is tried once, committed when it went
    through, and a failure of either is caught and reported. *)
Lemma effect_try_batch (sql table : str) (values : list value) (number : Z) :
  effect (try_except
            (bind (@cursor_execute _ T sql values) (fun _ => conn_commit (T:=T)))
            (print (BatchError number table)))
    [(sql, values)].
Proof.
  intros w. unfold try_except, bind, cursor_execute, conn_commit.
  destruct (execute T (server w) sql values) as [s ok].
  destruct ok; simpl.
  - destruct (commit T s) as [s' ok']. destruct ok'; simpl.
    + exists [(Execute sql values, true); (Commit value, true)], [].
      rewrite app_nil_r, <- app_assoc. repeat split.
    + exists [(Execute sql values, true); (Commit value, false)],
        [BatchError number table].
      rewrite <- app_assoc. repeat split.
  - exists [(Execute sql values, false)], [BatchError number table].
    repeat split.
Qed.

Lemma total_for_each (A : Type) (body : A -> M T unit) (l : list A) :
  (forall x, total (body x)) -> total (for_each l body).
Proof.
  intros Hbody. induction l as [|x l IH]; intros w; simpl.
  - reflexivity.
  - unfold bind. specialize (Hbody x w).
    destruct (body x w) as [w1 r]. simpl in Hbody. subst r. apply IH.
Qed.

End Steps.

Lemma flat_map_single (A B : Type) (g : A -> B) (l : list A) :
  flat_map (fun x => [g x]) l = map g l.
Proof. induction l as [|x l IH]; simpl; [reflexivity | now rewrite IH]. Qed.

Section Tables.

Variable value : Type.
Variable T : target value.
Variable conn : sqlite_conn value.

Lemma effect_create_indexes (table : str) :
  effect (@create_indexes _ T conn table)
    (map (fun idx => (index_sql table idx, [])) (get_indexes conn table)).
Proof.
  unfold create_indexes. rewrite <- flat_map_single.
  apply effect_for_each. intros idx.
  refine (effect_bind (p1 := []) _ _).
  - now apply effect_print.
  - apply effect_try_index.
Qed.

Lemma effect_move_batch (table : str) (cols : list str)
      (rows : list (list value)) (batch_size i : Z) :
  effect (@move_batch _ T table cols rows batch_size i)
    [insert_statement table cols (slice rows i (i + batch_size))].
Proof.
  unfold move_batch.
  refine (effect_bind (p1 := [_]) (p2 := []) _ _).
  - apply effect_try_batch.
  - now apply effect_print.
Qed.

Lemma effect_move_rows (table : str) (batch_size : Z) :
  effect (@move_rows _ T conn table batch_size)
    (map (insert_statement table (description conn table))
       (planned_batches (rows_read conn table) batch_size)).
Proof.
  unfold move_rows, rows_read, planned_batches.
  destruct (select_all conn table) as [[|row rows]|].
  - replace (map _ _) with (@nil (statement value));
      [now apply effect_print|].
    unfold py_range. simpl. now destruct (batch_size =? 0)%Z.
  - refine (effect_bind (p1 := []) _ _); [now apply effect_print|].
    destruct (py_range 0 (Z.of_nat (List.length (row :: rows))) batch_size)
      as [starts|].
    + rewrite map_map, <- flat_map_single.
      apply effect_for_each. intros i. apply effect_move_batch.
    + apply effect_raise.
  - apply effect_raise.
Qed.

Lemma effect_migrate_table (batch_size : Z) (table : str) :
  effect (@migrate_table _ T conn batch_size table)
    (table_plan conn batch_size table).
Proof.
  unfold migrate_table, table_plan.
  destruct (usable_schema (fetch_schema conn table)) as [schema|];
    [|apply effect_ret].
  refine (effect_bind (p1 := []) _ _); [now apply effect_print|].
  refine (effect_bind (p1 := []) _ _); [now apply effect_print|].
  refine (effect_bind (p1 := [_]) _ _); [apply effect_execute|].
  refine (effect_bind (p1 := [_]) _ _); [apply effect_execute|].
  refine (effect_bind (p1 := []) _ _); [apply effect_commit|].
  apply effect_bind.
  - apply effect_create_indexes.
  - apply effect_move_rows.
Qed.

Lemma effect_tables (batch_size : Z) :
  effect (for_each (get_tables conn) (@migrate_table _ T conn batch_size))
    (plan conn batch_size).
Proof. apply effect_for_each. intros table. apply effect_migrate_table. Qed.

Lemma total_bind (m1 m2 : M T unit) :
  total m1 -> total m2 -> total (bind m1 (fun _ => m2)).
Proof.
  intros H1 H2 w. unfold bind. specialize (H1 w).
  destruct (m1 w) as [w1 r]. simpl in H1. subst r. apply H2.
Qed.

Lemma total_print (l : line) : total (@print _ T l).
Proof. intros w. reflexivity. Qed.

Lemma total_create_indexes (table : str) :
  total (@create_indexes _ T conn table).
Proof.
  apply total_for_each. intros idx.
  apply total_bind; [apply total_print|].
  intros w. unfold try_except, cursor_execute.
  destruct (execute T (server w) (index_sql table idx) []) as [s ok].
  now destruct ok.
Qed.

Lemma total_move_batch (table : str) (cols : list str)
      (rows : list (list value)) (batch_size i : Z) :
  total (@move_batch _ T table cols rows batch_size i).
Proof.
  apply total_bind; [|apply total_print].
  intros w. unfold try_except, bind, cursor_execute, conn_commit.
  destruct (execute T (server w) _ _) as [s ok].
  destruct ok; simpl; [|reflexivity].
  destruct (commit T s) as [s' ok']. now destruct ok'.
Qed.

Lemma total_move_rows (table : str) (batch_size : Z) :
  batch_size <> 0%Z -> select_all conn table <> None ->
  total (@move_rows _ T conn table batch_size).
Proof.
  intros Hb Hread. unfold move_rows.
  destruct (select_all conn table) as [[|row rows]|];
    [apply total_print | | contradiction].
  apply total_bind; [apply total_print|].
  unfold py_range.
  replace (batch_size =? 0)%Z with false
    by (symmetry; now apply Z.eqb_neq).
  apply total_for_each. intros i. apply total_move_batch.
Qed.

Lemma rev_last (A : Type) (l : list A) (x : A) : rev (l ++ [x]) = x :: rev l.
Proof. now rewrite rev_app_distr. Qed.

Lemma stops_total (Q : Prop) (m : M T unit) : total m -> stops_only Q m.
Proof. intros Hm w H. rewrite Hm in H. discriminate. Qed.

(** Line 85 and line 86: a table statement that raises is the last
    call. *)
Lemma stops_table_statement (Q : Prop) (sql : str) :
  is_table_ddl sql = true -> stops_only Q (@cursor_execute _ T sql []).
Proof.
  intros Hsql w. unfold cursor_execute.
  destruct (execute T (server w) sql []) as [s ok].
  destruct ok; simpl; [discriminate|]. intros _. left.
  unfold stopped_at_table_statement. now rewrite rev_last.
Qed.

(** The run, from the opening of the connections: the table loop, and
    the closing lines when the loop returns. *)
Lemma main_unfold (batch_size : Z) (s0 : tstate T) :
  main conn batch_size (start T s0) =
  match for_each (get_tables conn) (migrate_table conn batch_size)
          {| server := s0; asked := [];
             printed := [TablesFound (get_tables conn)];
             mysql_closed := false; sqlite_closed := false |} with
  | (w1, Some _) =>
      ({| server := server w1; asked := asked w1;
          printed := printed w1 ++ [MigrationComplete];
          mysql_closed := true; sqlite_closed := true |}, Some tt)
  | (w1, None) => (w1, None)
  end.
Proof.
  unfold main, bind, print, start. simpl.
  now destruct (for_each _ _ _) as [w1 [u|]].
Qed.

(** The run either returns with both connections closed, everything
    planned executed and every failure reported, or lets an exception
    escape with both connections still open and the first statements of
    the plan executed. *)
Lemma main_outcome (batch_size : Z) (s0 : tstate T) :
  let out := main conn batch_size (start T s0) in
  (snd out = Some tt /\
   mysql_closed (fst out) = true /\ sqlite_closed (fst out) = true /\
   executed (asked (fst out)) = plan conn batch_size /\
   failures (asked (fst out)) = reports (printed (fst out)))
  \/
  (snd out = None /\
   mysql_closed (fst out) = false /\ sqlite_closed (fst out) = false /\
   exists q, plan conn batch_size = executed (asked (fst out)) ++ q).
Proof.
  cbv zeta. rewrite main_unfold.
  set (w0 := {| server := s0; asked := []; printed := [TablesFound _];
                mysql_closed := false; sqlite_closed := false |}).
  destruct (effect_tables batch_size w0)
    as (da & dp & Ha & Hp & Hm & Hs & Hr).
  destruct (for_each (get_tables conn) (migrate_table conn batch_size) w0)
    as [w1 [u|]]; simpl in *.
  - left. destruct Hr as [He Hf]. rewrite Ha, Hp.
    repeat split; trivial.
    change (TablesFound (get_tables conn) :: dp ++ [MigrationComplete])
      with ([TablesFound (get_tables conn)] ++ dp ++ [MigrationComplete]).
    rewrite !reports_app, Hf. unfold reports. simpl. lia.
  - right. rewrite Hm, Hs, Ha. repeat split; trivial.
Qed.

(** A computation that stops only at a table statement, followed by
    one that stops there or on [Q]. *)
Lemma exactly_bind (Q : Prop) (m1 m2 : M T unit)
      (p1 p2 : list (statement value)) :
  effect m1 p1 -> stops_only False m1 -> stops_exactly Q m2 p2 ->
  stops_exactly Q (bind m1 (fun _ => m2)) (p1 ++ p2).
Proof.
  intros He Hs H2 w. unfold bind.
  specialize (He w). specialize (Hs w).
  destruct (m1 w) as [w1 [u|]]; simpl in *.
  - destruct He as (da1 & dp1 & Ha1 & _ & _ & _ & He1 & _).
    intros H. destruct (H2 w1 H) as [Hstop | (HQ & da2 & Ha2 & He2)].
    + now left.
    + right. split; [exact HQ|]. exists (da1 ++ da2).
      rewrite Ha2, Ha1, app_assoc, executed_app. split; congruence.
  - intros H. destruct (Hs H) as [Hstop | []]. now left.
Qed.

(** Lines 86-87 before a computation that stops there or on [Q]. *)
Lemma exactly_statement_commit (Q : Prop) (sql : str) (k : M T unit)
      (p : list (statement value)) :
  is_table_ddl sql = true -> stops_exactly Q k p ->
  stops_exactly Q (bind (@cursor_execute _ T sql [])
                     (fun _ => bind (@conn_commit _ T) (fun _ => k)))
    ((sql, []) :: p).
Proof.
  intros Hsql Hk w. unfold bind, cursor_execute, conn_commit.
  destruct (execute T (server w) sql []) as [s ok].
  destruct ok; simpl.
  - destruct (commit T s) as [s' ok']. destruct ok'; simpl.
    + intros H.
      match type of H with
      | snd (k ?w1) = None =>
          destruct (Hk w1 H) as [Hstop | (HQ & da & Ha & He)]
      end.
      * now left.
      * right. split; [exact HQ|].
        exists ((Execute sql [], true) :: (Commit value, true) :: da).
        rewrite Ha. simpl. rewrite <- !app_assoc. simpl.
        split; [reflexivity | now rewrite He].
    + intros _. left. unfold stopped_at_table_statement.
      now rewrite !rev_last.
  - intros _. left. unfold stopped_at_table_statement. now rewrite rev_last.
Qed.

Lemma planned_batches_none (batch_size : Z) :
  planned_batches (@nil (list value)) batch_size = [].
Proof.
  unfold planned_batches, py_range. simpl.
  now destruct (batch_size =? 0)%Z.
Qed.

Lemma exactly_move_rows (table : str) (batch_size : Z) :
  batch_size <> 0%Z ->
  stops_exactly (select_all conn table = None)
    (@move_rows _ T conn table batch_size)
    (map (insert_statement table (description conn table))
       (planned_batches (rows_read conn table) batch_size)).
Proof.
  intros Hb w H. right.
  destruct (select_all conn table) as [rows|] eqn:E.
  - rewrite (@total_move_rows table batch_size Hb) in H by congruence.
    discriminate.
  - split; [reflexivity|]. exists [].
    unfold move_rows, rows_read. rewrite E. simpl.
    rewrite app_nil_r, planned_batches_none. now split.
Qed.

Lemma exactly_migrate_table (batch_size : Z) (table : str) :
  batch_size <> 0%Z ->
  stops_exactly (usable_schema (fetch_schema conn table) <> None /\
                 select_all conn table = None)
    (@migrate_table _ T conn batch_size table)
    (table_plan conn batch_size table).
Proof.
  intros Hb. unfold migrate_table, table_plan.
  destruct (usable_schema (fetch_schema conn table)) as [schema|];
    [|intros w H; discriminate H].
  assert (Hrows : stops_exactly
                    (Some schema <> None /\ select_all conn table = None)
                    (@move_rows _ T conn table batch_size)
                    (map (insert_statement table (description conn table))
                       (planned_batches (rows_read conn table) batch_size))).
  { intros w H.
    destruct (@exactly_move_rows table batch_size Hb w H)
      as [Hstop | (HQ & Hda)]; [now left | right].
    split; [split; [discriminate | exact HQ] | exact Hda]. }
  refine (exactly_bind (p1 := []) _ _ _);
    [now apply effect_print | apply stops_total, total_print |].
  refine (exactly_bind (p1 := []) _ _ _);
    [now apply effect_print | apply stops_total, total_print |].
  refine (exactly_bind (p1 := [_]) _ _ _);
    [apply effect_execute | now apply stops_table_statement |].
  apply exactly_statement_commit; [reflexivity|].
  apply exactly_bind.
  - apply effect_create_indexes.
  - apply stops_total, total_create_indexes.
  - exact Hrows.
Qed.

Lemma exactly_tables (batch_size : Z) (tables : list str) (w : world T) :
  batch_size <> 0%Z ->
  snd (for_each tables (@migrate_table _ T conn batch_size) w) = None ->
  stopped_at_table_statement
    (asked (fst (for_each tables (@migrate_table _ T conn batch_size) w)))
    = true \/
  exists before table after calls,
    tables = before ++ table :: after /\
    usable_schema (fetch_schema conn table) <> None /\
    select_all conn table = None /\
    asked (fst (for_each tables (@migrate_table _ T conn batch_size) w))
      = asked w ++ calls /\
    executed calls =
      flat_map (table_plan conn batch_size) before
        ++ table_plan conn batch_size table.
Proof.
  intros Hb. revert w. induction tables as [|table tables IH]; intros w.
  - simpl. discriminate.
  - simpl. unfold bind.
    pose proof (@exactly_migrate_table batch_size table Hb w) as H1.
    pose proof (effect_migrate_table batch_size table w) as He.
    destruct (migrate_table conn batch_size table w) as [w1 [u|]];
      simpl in *.
    + destruct He as (da1 & dp1 & Ha1 & _ & _ & _ & He1 & _).
      intros H.
      destruct (IH w1 H)
        as [Hstop | (before & t & after & da2 & -> & Hu & Hr & Ha2 & He2)].
      * now left.
      * right. exists (table :: before), t, after, (da1 ++ da2).
        split; [reflexivity|]. split; [exact Hu|]. split; [exact Hr|].
        rewrite Ha2, Ha1, app_assoc, executed_app. split; [reflexivity|].
        simpl. rewrite <- app_assoc. congruence.
    + intros H. destruct (H1 H) as [Hstop | ((Hu & Hr) & da & Ha & Hex)].
      * now left.
      * right. exists [], table, tables, da. now repeat split.
Qed.

(** With a batch size other than zero, an exception ends the run only
    at a table statement or at a read of the source. *)
Lemma main_stops_exactly (batch_size : Z) (s0 : tstate T) :
  batch_size <> 0%Z ->
  snd (main conn batch_size (start T s0)) = None ->
  stopped_at_table_statement
    (asked (fst (main conn batch_size (start T s0)))) = true \/
  stopped_at_read conn batch_size
    (asked (fst (main conn batch_size (start T s0)))).
Proof.
  intros Hb. rewrite main_unfold.
  set (w0 := {| server := s0; asked := []; printed := [TablesFound _];
                mysql_closed := false; sqlite_closed := false |}).
  pose proof (@exactly_tables batch_size (get_tables conn) w0 Hb) as H.
  destruct (for_each (get_tables conn) (migrate_table conn batch_size) w0)
    as [w1 [u|]]; simpl in *; [discriminate|].
  intros Hnone.
  destruct (H Hnone)
    as [Hstop | (before & t & after & da & Ht & Hu & Hr & Ha & He)].
  - now left.
  - right. exists before, t, after. rewrite Ha. now repeat split.
Qed.

(** The same, told by the source alone. *)
Lemma main_stops (batch_size : Z) (s0 : tstate T) :
  batch_size <> 0%Z ->
  snd (main conn batch_size (start T s0)) = None ->
  stopped_at_table_statement
    (asked (fst (main conn batch_size (start T s0)))) = true \/
  read_raises conn.
Proof.
  intros Hb Hnone.
  destruct (main_stops_exactly s0 Hb Hnone)
    as [Hstop | (before & t & after & Ht & Hu & Hr & _)].
  - now left.
  - right. exists t. rewrite Ht. split; [apply in_elt | now split].
Qed.

(** The index loop of a table always returns, with one statement per
    index and one warning per statement that raised. *)
Lemma create_indexes_isolated (table : str) (w : world T) :
  snd (create_indexes conn table w) = Some tt /\
  exists calls lines,
    asked (fst (create_indexes conn table w)) = asked w ++ calls /\
    printed (fst (create_indexes conn table w)) = printed w ++ lines /\
    executed calls =
      map (fun idx => (index_sql table idx, [])) (get_indexes conn table) /\
    failures calls = reports lines.
Proof.
  pose proof (total_create_indexes table w) as Hret.
  split; [exact Hret|].
  destruct (effect_create_indexes table w)
    as (da & dp & Ha & Hp & _ & _ & Hr).
  rewrite Hret in Hr. destruct Hr as [He Hf].
  exists da, dp. now repeat split.
Qed.

(** The batch loop of a table whose rows were read returns for every
    batch size but zero, with one insert per batch and one error line
    per batch that raised. *)
Lemma move_rows_isolated (table : str) (rows : list (list value))
      (batch_size : Z) (w : world T) :
  batch_size <> 0%Z ->
  select_all conn table = Some rows ->
  snd (move_rows conn table batch_size w) = Some tt /\
  exists calls lines,
    asked (fst (move_rows conn table batch_size w)) = asked w ++ calls /\
    printed (fst (move_rows conn table batch_size w)) = printed w ++ lines /\
    executed calls =
      map (insert_statement table (description conn table))
        (planned_batches rows batch_size) /\
    failures calls = reports lines.
Proof.
  intros Hb Hread.
  assert (Hret : snd (move_rows conn table batch_size w) = Some tt)
    by (apply total_move_rows; [exact Hb | congruence]).
  split; [exact Hret|].
  destruct (effect_move_rows table batch_size w)
    as (da & dp & Ha & Hp & _ & _ & Hr).
  rewrite Hret in Hr. destruct Hr as [He Hf].
  unfold rows_read in He. rewrite Hread in He.
  exists da, dp. now repeat split.
Qed.

End Tables.

End RunFacts.

(** C3.  Whatever the target does, and for a batch size of at least
    one.  The index loop of a table always returns: every index
    statement is executed once, in order, and each one that raised was
    reported by one warning.  The batch loop of a table whose rows were
    read always returns: every batch gets its insert once, in order,
    and each batch that raised was reported by one error line.  A run
    that returns has executed exactly the planned statements of every
    table, each once and in order, and printed one warning or error per
    call that raised.  An exception ends the run only at a table
    statement (the last call is a DROP TABLE or CREATE TABLE statement
    that raised, or the commit after it) or at a read of the source
    that raises (everything planned before that read was executed):
    never at an index statement or at an insert. *)
Theorem failures_isolated (value : Type) (T : target value)
        (conn : sqlite_conn value) (batch_size : Z) (s0 : tstate T) :
  (1 <= batch_size)%Z ->
  (forall (table : str) (w : world T),
      snd (create_indexes conn table w) = Some tt /\
      exists calls lines,
        asked (fst (create_indexes conn table w)) = asked w ++ calls /\
        printed (fst (create_indexes conn table w)) = printed w ++ lines /\
        executed calls =
          map (fun idx => (index_sql table idx, []))
            (get_indexes conn table) /\
        failures calls = reports lines) /\
  (forall (table : str) (rows : list (list value)) (w : world T),
      select_all conn table = Some rows ->
      snd (move_rows conn table batch_size w) = Some tt /\
      exists calls lines,
        asked (fst (move_rows conn table batch_size w)) = asked w ++ calls /\
        printed (fst (move_rows conn table batch_size w))
          = printed w ++ lines /\
        executed calls =
          map (insert_statement table (description conn table))
            (planned_batches rows batch_size) /\
        failures calls = reports lines) /\
  let out := main conn batch_size (start T s0) in
  (snd out = Some tt ->
   executed (asked (fst out)) = plan conn batch_size /\
   failures (asked (fst out)) = reports (printed (fst out))) /\
  (snd out = None ->
   stopped_at_table_statement (asked (fst out)) = true \/
   stopped_at_read conn batch_size (asked (fst out))).
Proof.
  intros Hb.
  split; [intros table w; apply RunFacts.create_indexes_isolated|].
  split.
  { intros table rows w Hread.
    apply RunFacts.move_rows_isolated; [lia | exact Hread]. }
  intros out. split.
  - intros Hret.
    destruct (@RunFacts.main_outcome _ T conn batch_size s0)
      as [(_ & _ & _ & He & Hf) | (Hnone & _)].
    + now split.
    + fold out in Hnone. congruence.
  - intros Hnone. apply RunFacts.main_stops_exactly; [lia | exact Hnone].
Qed.

Lemma failures_isolated_witness :
  (1 <= 2)%Z /\
  let out := main Sample.shop 2 (start Sample.grudging tt) in
  snd out = Some tt /\
  failures (asked (fst out)) = 3 /\
  executed (asked (fst out)) = plan Sample.shop 2 /\
  failures (asked (fst out)) = reports (printed (fst out)).
Proof.
  assert (Hb : (1 <= 2)%Z) by lia.
  split; [exact Hb|].
  pose proof (@failures_isolated _ Sample.grudging Sample.shop 2 tt Hb)
    as (_ & _ & Hrun).
  cbv zeta in Hrun. cbv zeta.
  assert (Hret : snd (main Sample.shop 2 (start Sample.grudging tt))
                 = Some tt) by reflexivity.
  destruct (proj1 Hrun Hret) as [He Hf].
  split; [exact Hret | split; [reflexivity | split; [exact He | exact Hf]]].
Defined.

(** C7, as amended.  Both connections are closed exactly when the run
    returns: after a run that returns both are closed, and after a run
    that an exception ends neither is.  For a batch size of at least
    one, a run in which no read of the source raises and which is not
    stopped at a table statement returns, whatever index statement or
    insert raised in it, and so closes both. *)
Theorem connections_closed_when_run_returns (value : Type)
        (T : target value) (conn : sqlite_conn value) (batch_size : Z)
        (s0 : tstate T) :
  let out := main conn batch_size (start T s0) in
  ((snd out = Some tt /\
    mysql_closed (fst out) = true /\ sqlite_closed (fst out) = true)
   \/
   (snd out = None /\
    mysql_closed (fst out) = false /\ sqlite_closed (fst out) = false))
  /\
  ((1 <= batch_size)%Z ->
   ~ read_raises conn ->
   stopped_at_table_statement (asked (fst out)) = false ->
   snd out = Some tt /\
   mysql_closed (fst out) = true /\ sqlite_closed (fst out) = true).
Proof.
  intros out.
  destruct (@RunFacts.main_outcome _ T conn batch_size s0)
    as [(Hret & Hm & Hs & _) | (Hnone & Hm & Hs & _)];
    fold out in Hret || fold out in Hnone; fold out in Hm, Hs.
  - split; [left; now repeat split | now intros _ _ _].
  - split; [right; now repeat split|].
    intros Hb Hread Hstop. exfalso.
    destruct (@RunFacts.main_stops _ T conn batch_size s0 ltac:(lia) Hnone)
      as [H | H].
    + fold out in H. congruence.
    + contradiction.
Qed.

Lemma connections_closed_when_run_returns_witness :
  (1 <= 2)%Z /\
  ~ read_raises Sample.shop /\
  stopped_at_table_statement
    (asked (fst (main Sample.shop 2 (start Sample.grudging tt)))) = false /\
  failures (asked (fst (main Sample.shop 2 (start Sample.grudging tt)))) = 3 /\
  mysql_closed (fst (main Sample.shop 2 (start Sample.grudging tt))) = true /\
  sqlite_closed (fst (main Sample.shop 2 (start Sample.grudging tt))) = true.
Proof.
  assert (Hb : (1 <= 2)%Z) by lia.
  assert (Hread : ~ read_raises Sample.shop).
  { intros (table & Hin & Hu & Hsel).
    destruct Hin as [<- | [<- | []]]; [discriminate Hsel | now apply Hu]. }
  assert (Hstop : stopped_at_table_statement
                    (asked (fst (main Sample.shop 2
                                   (start Sample.grudging tt)))) = false)
    by reflexivity.
  split; [exact Hb | split; [exact Hread | split; [exact Hstop|]]].
  split; [reflexivity|].
  exact (proj2 (proj2 (@connections_closed_when_run_returns
                         _ Sample.grudging Sample.shop 2 tt)
                  Hb Hread Hstop)).
Defined.

(** C7 as the specification states it does not hold: when the target
    refuses the CREATE TABLE statement of a table without parsed columns,
    the exception ends the run and neither connection has been closed. *)
Lemma connections_left_open_on_exception :
  let out := main Sample.untyped 100 (start Sample.strict tt) in
  snd out = None /\
  mysql_closed (fst out) = false /\ sqlite_closed (fst out) = false.
Proof. vm_compute. repeat split. Qed.

(** A read of the source that raises ends the run in the same way: the
    second table below has a backquote in its name, the target takes
    every statement, and the run stops after the table statements of
    that table, both connections open and the third table untouched. *)
Example read_failure_ends_run :
  let out := main Sample.quoted 100 (start Sample.willing tt) in
  snd out = None /\
  mysql_closed (fst out) = false /\ sqlite_closed (fst out) = false /\
  stopped_at_table_statement (asked (fst out)) = false /\
  map fst (executed (asked (fst out))) =
    [ "DROP TABLE IF EXISTS `a`;" : str;
      "CREATE TABLE IF NOT EXISTS `a` (`x` INT);" : str;
      "INSERT INTO `a` (`x`) VALUES (%s)" : str;
      "DROP TABLE IF EXISTS `we`ird`;" : str;
      "CREATE TABLE IF NOT EXISTS `we`ird` (`y` TEXT);" : str ].
Proof. vm_compute. repeat split. Qed.

(** C9.  No table name returned by [get_tables] starts with sqlite_,
    and every statement a run executes on the target, whatever the
    target and the batch size, is one of the planned statements of a
    table that [get_tables] returned. *)
Theorem internal_tables_excluded (value : Type) (conn : sqlite_conn value) :
  (forall name : str,
      In name (get_tables conn) -> Text.startswith "sqlite_" name = false) /\
  (forall (T : target value) (batch_size : Z) (s0 : tstate T)
          (st : statement value),
      In st (executed (asked (fst (main conn batch_size (start T s0))))) ->
      exists table,
        In table (get_tables conn) /\
        Text.startswith "sqlite_" table = false /\
        In st (table_plan conn batch_size table)).
Proof.
  assert (Hnames : forall name : str,
             In name (get_tables conn) ->
             Text.startswith "sqlite_" name = false).
  { intros name Hin. unfold get_tables in Hin.
    apply in_map_iff in Hin as (r & <- & Hr).
    apply filter_In in Hr as [_ Hr].
    now apply negb_true_iff in Hr. }
  split; [exact Hnames|].
  intros T batch_size s0 st Hin.
  assert (Hplan : In st (plan conn batch_size)).
  { destruct (@RunFacts.main_outcome _ T conn batch_size s0)
      as [(_ & _ & _ & He & _) | (_ & _ & _ & q & Hq)].
    - now rewrite <- He.
    - rewrite Hq. apply in_or_app. now left. }
  unfold plan in Hplan. apply in_flat_map in Hplan as (table & Ht & Hst).
  exists table. repeat split; trivial. now apply Hnames.
Qed.

Lemma internal_tables_excluded_witness :
  In ("users" : str) (get_tables Sample.shop) /\
  Text.startswith "sqlite_" "users" = false.
Proof.
  assert (Hin : In ("users" : str) (get_tables Sample.shop))
    by (left; reflexivity).
  split; [exact Hin|].
  exact (proj1 (internal_tables_excluded Sample.shop) _ Hin).
Defined.

(** C10.  When the row fetched for a table is missing, or its creation
    text is NULL or empty, the body of the table loop leaves the world
    as it is: nothing is executed on the target, nothing is printed,
    nothing is planned for the table, and the loop goes on with the
    next table. *)
Theorem table_without_schema_skipped (value : Type) (T : target value)
        (conn : sqlite_conn value) (batch_size : Z) (table : str)
        (rest : list str) (w : world T) :
  fetch_schema conn table = None \/
  fetch_schema conn table = Some None \/
  fetch_schema conn table = Some (Some []) ->
  migrate_table conn batch_size table w = (w, Some tt) /\
  table_plan conn batch_size table = [] /\
  for_each (table :: rest) (migrate_table conn batch_size) w =
  for_each rest (migrate_table conn batch_size) w.
Proof.
  intros H.
  assert (Hu : usable_schema (fetch_schema conn table) = None)
    by (destruct H as [-> | [-> | ->]]; reflexivity).
  assert (Hskip : migrate_table conn batch_size table w = (w, Some tt))
    by (unfold migrate_table; now rewrite Hu).
  repeat split.
  - exact Hskip.
  - unfold table_plan. now rewrite Hu.
  - simpl. unfold bind. now rewrite Hskip.
Qed.

Lemma table_without_schema_skipped_witness :
  (fetch_schema Sample.shop "ghost" = None \/
   fetch_schema Sample.shop "ghost" = Some None \/
   fetch_schema Sample.shop "ghost" = Some (Some [])) /\
  In ("ghost" : str) (get_tables Sample.shop) /\
  migrate_table Sample.shop 2 "ghost" (start Sample.willing tt) =
    (start Sample.willing tt, Some tt).
Proof.
  assert (H : fetch_schema Sample.shop "ghost" = None \/
              fetch_schema Sample.shop "ghost" = Some None \/
              fetch_schema Sample.shop "ghost" = Some (Some []))
    by (right; left; reflexivity).
  split; [exact H | split; [right; left; reflexivity|]].
  exact (proj1 (@table_without_schema_skipped
                  _ Sample.willing Sample.shop 2 "ghost" []
                  (start Sample.willing tt) H)).
Defined.

Module BatchShape.
Import BatchFacts.

Open Scope Z_scope.

Section Shape.

Variable value : Type.
Variable rows : list (list value).
Variable batch_size : Z.
Hypothesis Hpos : 0 < batch_size.

Lemma batches_count :
  Z.of_nat (List.length (planned_batches rows batch_size)) =
  ceil_div (Z.of_nat (List.length rows)) batch_size.
Proof.
  rewrite planned_batches_chunks by exact Hpos.
  rewrite length_map, length_seq.
  pose proof (ceil_div_nonneg Hpos (Nat2Z.is_nonneg (List.length rows))).
  lia.
Qed.

Lemma batches_concat : List.concat (planned_batches rows batch_size) = rows.
Proof.
  rewrite planned_batches_chunks by exact Hpos.
  apply chunks_concat.
  remember (Z.of_nat (List.length rows)) as n eqn:En.
  pose proof (ceil_div_bounds n Hpos) as [_ Hup].
  assert (Hq : 0 <= ceil_div n batch_size)
    by (apply ceil_div_nonneg; lia).
  rewrite <- Z2Nat.inj_mul by lia.
  replace (List.length rows) with (Z.to_nat n) by lia.
  apply Z2Nat.inj_le; nia.
Qed.

Lemma batches_sizes :
  rows <> [] ->
  exists front final,
    planned_batches rows batch_size = front ++ [final] /\
    Forall (fun b => Z.of_nat (List.length b) = batch_size) front /\
    Z.of_nat (List.length final) =
      (if Z.of_nat (List.length rows) mod batch_size =? 0
       then batch_size
       else Z.of_nat (List.length rows) mod batch_size).
Proof.
  intros Hne.
  rewrite planned_batches_chunks by exact Hpos.
  assert (Hlen : forall j,
             Z.of_nat (List.length (chunk (Z.to_nat batch_size) rows j)) =
             Z.min batch_size
               (Z.max 0 (Z.of_nat (List.length rows)
                         - Z.of_nat j * batch_size))).
  { intros j. rewrite chunk_length. nia. }
  remember (Z.of_nat (List.length rows)) as n eqn:En.
  assert (Hn : 0 < n)
    by (subst n; destruct rows; [contradiction | simpl; lia]).
  pose proof (ceil_div_bounds n Hpos) as [Hlow Hup].
  assert (Hq : 0 < ceil_div n batch_size) by nia.
  destruct (Z.to_nat (ceil_div n batch_size)) as [|m] eqn:Em; [lia|].
  assert (Hm : ceil_div n batch_size = Z.of_nat m + 1) by lia.
  rewrite Hm in Hlow, Hup.
  rewrite seq_S, map_app. simpl.
  exists (map (chunk (Z.to_nat batch_size) rows) (seq 0 m)),
    (chunk (Z.to_nat batch_size) rows m).
  split; [reflexivity|]. split.
  - apply Forall_forall. intros b Hb.
    apply in_map_iff in Hb as (j & <- & Hj). apply in_seq in Hj.
    rewrite Hlen. nia.
  - rewrite Hlen.
    pose proof (Z.div_mod n batch_size ltac:(lia)) as Hdm.
    pose proof (Z.mod_pos_bound n batch_size Hpos) as Hr.
    remember (n / batch_size) as q eqn:Eq.
    remember (n mod batch_size) as r eqn:Er.
    destruct (Z.eqb_spec r 0) as [E|E].
    + assert (q = Z.of_nat m + 1) by nia. subst q. nia.
    + assert (q = Z.of_nat m) by nia. subst q. nia.
Qed.

End Shape.

End BatchShape.

Module InsertFacts.

Lemma join_comma_list (items : list str) :
  Text.join ", " items = InsertSpec.comma_list items.
Proof.
  destruct items as [|first others]; [reflexivity|].
  revert first. induction others as [|second others IH]; intros first.
  - simpl. now rewrite app_nil_r.
  - change (Text.join ", " (first :: second :: others))
      with (first ++ (", " : str) ++ Text.join ", " (second :: others)).
    rewrite IH. reflexivity.
Qed.

Lemma map_const_repeat (A B : Type) (b : B) (l : list A) :
  map (fun _ => b) l = repeat b (List.length l).
Proof. induction l as [|x l IH]; simpl; [reflexivity | now rewrite IH]. Qed.

Lemma backquoted_quoted_name (name : str) :
  backquoted name = InsertSpec.quoted_name name.
Proof. reflexivity. Qed.

(** The text of lines 111-112 is the multi-row insert of the
    specification for the number of rows of the batch. *)
Lemma insert_sql_multi_row (value : Type) (table : str) (cols : list str)
      (batch : list (list value)) :
  insert_sql table cols batch =
  InsertSpec.multi_row_insert table cols (List.length batch).
Proof.
  unfold insert_sql, InsertSpec.multi_row_insert.
  rewrite !join_comma_list, map_const_repeat.
  rewrite (map_ext _ _ backquoted_quoted_name).
  reflexivity.
Qed.

End InsertFacts.

(** C1.  For a batch size of at least one, the rows read from a table
    are cut into ceil(N / B) batches that follow one another in source
    order (put end to end they give the rows back); every batch but the
    last has B rows and the last has N mod B rows, or B when B divides
    N; the batch loop returns and the statements it executes are exactly
    one per batch, in order, each a multi-row insert into the table
    with one placeholder group per row of its batch and the values of
    these rows as parameters; with no rows, no call at all is made on
    the target. *)
Theorem batch_mover_partition (value : Type) (T : target value)
        (conn : sqlite_conn value) (table : str)
        (rows : list (list value)) (batch_size : Z) (w : world T) :
  (1 <= batch_size)%Z ->
  select_all conn table = Some rows ->
  let n := Z.of_nat (List.length rows) in
  let batches := planned_batches rows batch_size in
  let out := move_rows conn table batch_size w in
  Z.of_nat (List.length batches) = ceil_div n batch_size /\
  ((Z.of_nat (List.length batches) - 1) * batch_size < n
   <= Z.of_nat (List.length batches) * batch_size)%Z /\
  List.concat batches = rows /\
  (rows <> [] ->
   exists front final,
     batches = front ++ [final] /\
     Forall (fun b => Z.of_nat (List.length b) = batch_size) front /\
     Z.of_nat (List.length final) =
       (if (n mod batch_size =? 0)%Z then batch_size
        else (n mod batch_size)%Z)) /\
  snd out = Some tt /\
  (exists calls,
      asked (fst out) = asked w ++ calls /\
      executed calls =
        map (insert_statement table (description conn table)) batches /\
      Forall2
        (fun (st : statement value) batch =>
           fst st = InsertSpec.multi_row_insert table
                      (description conn table) (List.length batch) /\
           snd st = List.concat batch)
        (executed calls) batches) /\
  (rows = [] -> asked (fst out) = asked w).
Proof.
  intros Hb Hread n batches out.
  assert (Hpos : (0 < batch_size)%Z) by lia.
  assert (Hcount : Z.of_nat (List.length batches) = ceil_div n batch_size)
    by (apply BatchShape.batches_count; exact Hpos).
  destruct (@RunFacts.move_rows_isolated _ T conn table rows batch_size w)
    as (Hret & da & dp & Ha & _ & He & _); [lia | exact Hread |].
  fold out in Hret, Ha. fold batches in He.
  split; [exact Hcount|].
  split; [rewrite Hcount; now apply BatchFacts.ceil_div_bounds|].
  split; [now apply BatchShape.batches_concat|].
  split; [now apply BatchShape.batches_sizes|].
  split; [exact Hret|]. split.
  - exists da. split; [exact Ha|]. split; [exact He|].
    rewrite He. clear. induction batches as [|b bs IH]; simpl.
    + constructor.
    + constructor; [|exact IH]. split; [|reflexivity].
      apply InsertFacts.insert_sql_multi_row.
  - intros Hrows. unfold out, move_rows. rewrite Hread, Hrows. reflexivity.
Qed.

Lemma batch_mover_partition_witness :
  (1 <= 2)%Z /\
  select_all Sample.shop "users"
    = Some [ ["1" : str; "a" : str]; ["2" : str; "b" : str];
             ["3" : str; "c" : str] ] /\
  let rows := [ ["1" : str; "a" : str]; ["2" : str; "b" : str];
                ["3" : str; "c" : str] ] in
  let batches := planned_batches rows 2 in
  let out := move_rows Sample.shop "users" 2 (start Sample.grudging tt) in
  Z.of_nat (List.length batches) = ceil_div 3 2 /\
  List.concat batches = rows /\
  snd out = Some tt.
Proof.
  assert (Hb : (1 <= 2)%Z) by lia.
  assert (Hread : select_all Sample.shop "users"
                  = Some [ ["1" : str; "a" : str]; ["2" : str; "b" : str];
                           ["3" : str; "c" : str] ]) by reflexivity.
  split; [exact Hb | split; [exact Hread|]].
  pose proof (@batch_mover_partition _ Sample.grudging Sample.shop "users" _ 2
                (start Sample.grudging tt) Hb Hread) as H.
  cbv zeta in H. cbv zeta.
  destruct H as (Hcount & _ & Hconcat & _ & Hret & _).
  split; [exact Hcount | split; [exact Hconcat | exact Hret]].
Defined.

(** The run of the sample source on a willing target with batches of
    two rows: the table statements, the index, then two inserts of two
    rows and one row, each followed by its commit. *)
Example sample_run_calls :
  map fst (asked (fst (main Sample.shop 2 (start Sample.willing tt)))) =
  [ Execute ("DROP TABLE IF EXISTS `users`;" : str) [];
    Execute ("CREATE TABLE IF NOT EXISTS `users` (`id` INT, `name` TEXT);"
             : str) [];
    Commit str;
    Execute ("CREATE INDEX `ix` ON `users` (`name`);" : str) [];
    Execute ("INSERT INTO `users` (`id`, `name`) VALUES (%s, %s), (%s, %s)"
             : str)
      ["1" : str; "a" : str; "2" : str; "b" : str];
    Commit str;
    Execute ("INSERT INTO `users` (`id`, `name`) VALUES (%s, %s)" : str)
      ["3" : str; "c" : str];
    Commit str ].
Proof. reflexivity. Qed.

(** * Further properties *)

(** ** The column pattern *)

Module ScanFacts.
Import Re ReFacts Scan.

Section Greedy.

Variable R : Type.
Variable p : ascii -> bool.
Variable k : str -> captures -> option R.

(** When the continuation takes the text left by the longest run, the
    star stops there. *)
Lemma star_chr_longest (s : str) (caps : captures) :
  k (Text.lstrip_by p s) caps <> None ->
  star_chr p k caps s = k (Text.lstrip_by p s) caps.
Proof.
  induction s as [|c s IH]; simpl; [reflexivity|].
  destruct (p c); [|reflexivity].
  intros H. rewrite (IH H).
  destruct (k (Text.lstrip_by p s) caps); [reflexivity | contradiction].
Qed.

Lemma exec_opt_chr (s : str) (caps : captures) :
  (forall c rest, p c = true -> k (c :: rest) caps = None) ->
  exec (Opt (Chr p)) s caps k = k (drop_if p s) caps.
Proof.
  intros Hk. rewrite exec_opt, exec_chr.
  destruct s as [|c s]; [reflexivity|]. simpl.
  destruct (p c) eqn:Hc; [|reflexivity].
  destruct (k s caps); [reflexivity | now apply Hk].
Qed.

Lemma exec_plus_chr (s : str) (caps : captures) :
  (forall c rest, p c = true -> k (c :: rest) caps = None) ->
  exec (Plus (Chr p)) s caps k =
  if starts_with_class p s then k (Text.lstrip_by p s) caps else None.
Proof.
  intros Hk. unfold Plus. rewrite exec_cat, exec_chr.
  destruct s as [|c s]; [reflexivity|].
  cbn [starts_with_class Text.lstrip_by]. cbv beta iota.
  destruct (p c); [|reflexivity].
  rewrite exec_star_chr. now apply star_chr_greedy.
Qed.

Lemma exec_plus_chr_last (s : str) (caps : captures) :
  (forall s' caps', k s' caps' <> None) ->
  exec (Plus (Chr p)) s caps k =
  if starts_with_class p s then k (Text.lstrip_by p s) caps else None.
Proof.
  intros Hk. unfold Plus. rewrite exec_cat, exec_chr.
  destruct s as [|c s]; [reflexivity|].
  cbn [starts_with_class Text.lstrip_by]. cbv beta iota.
  destruct (p c); [|reflexivity].
  rewrite exec_star_chr. now apply star_chr_longest.
Qed.

End Greedy.

Lemma take_while_firstn (p : ascii -> bool) (s : str) :
  firstn (List.length s - List.length (Text.lstrip_by p s)) s =
  take_while p s.
Proof.
  induction s as [|c s IH]; [reflexivity|]. simpl Text.lstrip_by.
  simpl take_while. destruct (p c).
  - assert (Hle : List.length (Text.lstrip_by p s) <= List.length s).
    { clear IH. induction s as [|d s IHs]; simpl; [lia|].
      destruct (p d); simpl; lia. }
    replace (List.length (c :: s) - List.length (Text.lstrip_by p s))
      with (S (List.length s - List.length (Text.lstrip_by p s)))
      by (cbn [List.length]; lia).
    cbn [firstn]. now rewrite IH.
  - now rewrite Nat.sub_diag.
Qed.

Lemma take_drop_while (p : ascii -> bool) (s : str) :
  take_while p s ++ Text.lstrip_by p s = s.
Proof.
  induction s as [|c s IH]; simpl; [reflexivity|].
  destruct (p c); simpl; [now rewrite IH | reflexivity].
Qed.

Lemma take_while_all (p : ascii -> bool) (s : str) :
  forallb p (take_while p s) = true.
Proof.
  induction s as [|c s IH]; simpl; [reflexivity|].
  destruct (p c) eqn:Hc; simpl; [now rewrite Hc | reflexivity].
Qed.

Lemma open_quote_not_word (c : ascii) :
  open_quote c = true -> Text.is_word c = false.
Proof. destruct c as [[] [] [] [] [] [] [] []]; now compute. Qed.

Lemma word_not_close_quote (c : ascii) :
  Text.is_word c = true -> close_quote c = false.
Proof. destruct c as [[] [] [] [] [] [] [] []]; now compute. Qed.

Lemma word_not_space (c : ascii) :
  Text.is_word c = true -> Text.is_space c = false.
Proof. destruct c as [[] [] [] [] [] [] [] []]; now compute. Qed.

Lemma close_quote_not_space (c : ascii) :
  close_quote c = true -> Text.is_space c = false.
Proof. destruct c as [[] [] [] [] [] [] [] []]; now compute. Qed.

Lemma space_not_type_char (c : ascii) :
  Text.is_space c = true -> type_char c = false.
Proof. unfold type_char. now intros ->. Qed.

Lemma re_column_eq :
  re_column = Cat (Opt (Chr open_quote))
                (Cat (Group 1 (Plus (Chr Text.is_word))) after_name).
Proof. reflexivity. Qed.

Section Tail.

Variable R : Type.
Variable k : str -> captures -> option R.
Hypothesis k_total : forall s caps, k s caps <> None.

Lemma type_group (s : str) (caps : captures) :
  exec (Group 2 (Plus (Chr type_char))) s caps k =
  if starts_with_class type_char s
  then k (Text.lstrip_by type_char s) ((2, take_while type_char s) :: caps)
  else None.
Proof.
  rewrite exec_group, exec_plus_chr_last.
  - now rewrite take_while_firstn.
  - intros s' caps'. apply k_total.
Qed.

Lemma spaces_then_type (s : str) (caps : captures) :
  exec (Cat (Plus (Chr Text.is_space)) (Group 2 (Plus (Chr type_char))))
    s caps k =
  if starts_with_class Text.is_space s
     && starts_with_class type_char (Text.lstrip_by Text.is_space s)
  then k (Text.lstrip_by type_char (Text.lstrip_by Text.is_space s))
         ((2, take_while type_char (Text.lstrip_by Text.is_space s)) :: caps)
  else None.
Proof.
  rewrite exec_cat, exec_plus_chr.
  - destruct (starts_with_class Text.is_space s); [|reflexivity].
    now rewrite type_group.
  - intros c rest Hc. rewrite type_group. simpl.
    now rewrite (space_not_type_char c Hc).
Qed.

Lemma after_name_scan (s : str) (caps : captures) :
  exec after_name s caps k =
  let s3 := drop_if close_quote s in
  let s4 := Text.lstrip_by Text.is_space s3 in
  if starts_with_class Text.is_space s3 && starts_with_class type_char s4
  then k (Text.lstrip_by type_char s4) ((2, take_while type_char s4) :: caps)
  else None.
Proof.
  unfold after_name. rewrite exec_cat, exec_opt_chr.
  - now rewrite spaces_then_type.
  - intros c rest Hc. rewrite spaces_then_type. simpl.
    now rewrite (close_quote_not_space c Hc).
Qed.

Lemma after_name_refuses_word (c : ascii) (rest : str) (caps : captures) :
  Text.is_word c = true -> exec after_name (c :: rest) caps k = None.
Proof.
  intros Hc. rewrite after_name_scan. cbv zeta. cbn [drop_if].
  rewrite (word_not_close_quote c Hc). cbn [starts_with_class].
  now rewrite (word_not_space c Hc).
Qed.

Lemma column_exec (line : str) :
  exec re_column line [] k =
  match column_scan line with
  | Some (name, ty, rest) => k rest [(2, ty); (1, name)]
  | None => None
  end.
Proof.
  rewrite re_column_eq, exec_cat.
  assert (Hname : forall s caps,
             exec (Cat (Group 1 (Plus (Chr Text.is_word))) after_name)
               s caps k =
             if starts_with_class Text.is_word s
             then exec after_name (Text.lstrip_by Text.is_word s)
                    ((1, take_while Text.is_word s) :: caps) k
             else None).
  { intros s caps. rewrite exec_cat, exec_group, exec_plus_chr.
    - now rewrite take_while_firstn.
    - intros c rest Hc. now apply after_name_refuses_word. }
  rewrite exec_opt_chr.
  - rewrite Hname. unfold column_scan.
    destruct (starts_with_class Text.is_word (drop_if open_quote line));
      [|reflexivity].
    rewrite after_name_scan. cbv zeta. simpl andb.
    now destruct (_ && _).
  - intros c rest Hc. rewrite Hname. simpl.
    now rewrite (open_quote_not_word c Hc).
Qed.

End Tail.

(** The groups of line 33 are what the scan gives. *)
Lemma column_tokens_scan (line : str) :
  column_tokens line =
  match column_scan line with
  | Some (name, ty, _) => Some (name, ty)
  | None => None
  end.
Proof.
  unfold column_tokens, re_match, match_at.
  rewrite column_exec by discriminate.
  destruct (column_scan line) as [[[name ty] rest]|]; reflexivity.
Qed.

Lemma lstrip_by_app (p : ascii -> bool) (a b : str) :
  forallb p a = true -> starts_with_class p b = false ->
  Text.lstrip_by p (a ++ b) = b.
Proof.
  intros Ha Hb. induction a as [|c a IH]; simpl.
  - destruct b as [|d b]; [reflexivity|]. simpl in *. now rewrite Hb.
  - simpl in Ha. apply andb_true_iff in Ha as [Hc Ha].
    rewrite Hc. now apply IH.
Qed.

Lemma take_while_app (p : ascii -> bool) (a b : str) :
  forallb p a = true -> starts_with_class p b = false ->
  take_while p (a ++ b) = a.
Proof.
  intros Ha Hb. induction a as [|c a IH]; simpl.
  - destruct b as [|d b]; [reflexivity|]. simpl in *. now rewrite Hb.
  - simpl in Ha. apply andb_true_iff in Ha as [Hc Ha].
    rewrite Hc. now rewrite IH.
Qed.

Lemma starts_app (p : ascii -> bool) (a b : str) :
  a <> [] -> starts_with_class p (a ++ b) = starts_with_class p a.
Proof. destruct a; [contradiction | reflexivity]. Qed.

Lemma starts_all (p : ascii -> bool) (a : str) :
  a <> [] -> forallb p a = true -> starts_with_class p a = true.
Proof.
  destruct a as [|c a]; [contradiction|]. simpl.
  intros _ H. now apply andb_true_iff in H as [H _].
Qed.

Lemma drop_if_optional (p : ascii -> bool) (q b : str) :
  optional p q -> starts_with_class p b = false ->
  drop_if p (q ++ b) = b.
Proof.
  intros [-> | (c & -> & Hc)] Hb; simpl.
  - destruct b as [|d b]; [reflexivity|]. simpl in *. now rewrite Hb.
  - now rewrite Hc.
Qed.

Lemma starts_other_class (p q : ascii -> bool) (a b : str) :
  (forall c, q c = true -> p c = false) ->
  a <> [] -> forallb q a = true -> starts_with_class p (a ++ b) = false.
Proof.
  intros Hpq Ha Hq. destruct a as [|c a]; [contradiction|]. simpl.
  simpl in Hq. apply andb_true_iff in Hq as [Hc _]. now apply Hpq.
Qed.

Lemma starts_optional (p q : ascii -> bool) (o b : str) :
  (forall c, q c = true -> p c = false) ->
  optional q o -> starts_with_class p b = false ->
  starts_with_class p (o ++ b) = false.
Proof.
  intros Hpq [-> | (c & -> & Hc)] Hb; simpl; [exact Hb | now apply Hpq].
Qed.

Lemma word_not_open_quote (c : ascii) :
  Text.is_word c = true -> open_quote c = false.
Proof. destruct c as [[] [] [] [] [] [] [] []]; now compute. Qed.

Lemma close_quote_not_word (c : ascii) :
  close_quote c = true -> Text.is_word c = false.
Proof. destruct c as [[] [] [] [] [] [] [] []]; now compute. Qed.

Lemma space_not_word (c : ascii) :
  Text.is_space c = true -> Text.is_word c = false.
Proof. destruct c as [[] [] [] [] [] [] [] []]; now compute. Qed.

Lemma space_not_close_quote (c : ascii) :
  Text.is_space c = true -> close_quote c = false.
Proof. destruct c as [[] [] [] [] [] [] [] []]; now compute. Qed.

Lemma type_char_not_space (c : ascii) :
  type_char c = true -> Text.is_space c = false.
Proof.
  unfold type_char. intros H. apply negb_true_iff in H.
  now apply orb_false_iff in H as [H _].
Qed.

Lemma drop_if_in (p : ascii -> bool) (s : str) (c : ascii) :
  In c (drop_if p s) -> In c s.
Proof.
  destruct s as [|d s]; simpl; [tauto|].
  destruct (p d); simpl; tauto.
Qed.

Lemma lstrip_by_in (p : ascii -> bool) (s : str) (c : ascii) :
  In c (Text.lstrip_by p s) -> In c s.
Proof.
  induction s as [|d s IH]; simpl; [tauto|].
  destruct (p d); simpl; tauto.
Qed.

Lemma starts_in (p : ascii -> bool) (s : str) :
  starts_with_class p s = true -> exists c, In c s /\ p c = true.
Proof.
  destruct s as [|c s]; simpl; [discriminate|].
  intros H. exists c. tauto.
Qed.

Lemma take_while_nonempty (p : ascii -> bool) (s : str) :
  starts_with_class p s = true -> take_while p s <> [].
Proof.
  destruct s as [|c s]; simpl; [discriminate|].
  intros ->. discriminate.
Qed.

(** What the scan of a clause gives when it gives something. *)
Lemma column_tokens_inv (line name ty : str) :
  column_tokens line = Some (name, ty) ->
  name <> [] /\ forallb Text.is_word name = true /\
  ty <> [] /\ forallb type_char ty = true.
Proof.
  rewrite column_tokens_scan. unfold column_scan.
  destruct (starts_with_class Text.is_word _) eqn:H1; [|discriminate].
  destruct (starts_with_class Text.is_space _) eqn:H3; [|discriminate].
  destruct (starts_with_class type_char _) eqn:H4; [|discriminate].
  simpl. intros H. injection H as <- <-.
  repeat split; auto using take_while_nonempty, take_while_all.
Qed.

Lemma tokens_shape (q1 name q2 sp ty rest : str) :
  optional open_quote q1 ->
  name <> [] -> forallb Text.is_word name = true ->
  optional close_quote q2 ->
  sp <> [] -> forallb Text.is_space sp = true ->
  ty <> [] -> forallb type_char ty = true ->
  starts_with_class type_char rest = false ->
  column_tokens (q1 ++ name ++ q2 ++ sp ++ ty ++ rest) = Some (name, ty).
Proof.
  intros Hq1 Hn Hname Hq2 Hs Hsp Ht Hty Hrest.
  rewrite column_tokens_scan. unfold column_scan.
  assert (E4 : starts_with_class Text.is_space (ty ++ rest) = false)
    by (apply starts_other_class with (q := type_char);
        auto using type_char_not_space).
  assert (E3 : starts_with_class close_quote
                 (sp ++ ty ++ rest) = false)
    by (apply starts_other_class with (q := Text.is_space);
        auto using space_not_close_quote).
  assert (E2 : starts_with_class Text.is_word
                 (q2 ++ sp ++ ty ++ rest) = false).
  { apply starts_optional with (q := close_quote);
      auto using close_quote_not_word.
    apply starts_other_class with (q := Text.is_space);
      auto using space_not_word. }
  assert (E1 : starts_with_class open_quote
                 (name ++ q2 ++ sp ++ ty ++ rest) = false)
    by (apply starts_other_class with (q := Text.is_word);
        auto using word_not_open_quote).
  rewrite (@drop_if_optional _ _ _ Hq1 E1).
  rewrite (@lstrip_by_app _ _ _ Hname E2).
  rewrite (@drop_if_optional _ _ _ Hq2 E3).
  rewrite (@lstrip_by_app _ _ _ Hsp E4).
  rewrite !starts_app by assumption.
  rewrite !starts_all by assumption.
  rewrite (@take_while_app _ _ _ Hname E2).
  rewrite (@take_while_app _ _ _ Hty Hrest).
  reflexivity.
Qed.

End ScanFacts.

(** X1.  A clause of ASCII characters made of a name of word
    characters, with or without a quote or bracket before and after it,
    then spaces, then a run of characters that are neither spaces nor
    commas, yields that name and that run as type token, whatever
    follows the run after a space or a comma. *)
Theorem column_tokens_of_shape (q1 name q2 sp ty rest : str) :
  Text.ascii_text (q1 ++ name ++ q2 ++ sp ++ ty ++ rest) ->
  Scan.optional Scan.open_quote q1 ->
  name <> [] -> forallb Text.is_word name = true ->
  Scan.optional Scan.close_quote q2 ->
  sp <> [] -> forallb Text.is_space sp = true ->
  ty <> [] -> forallb Scan.type_char ty = true ->
  Scan.starts_with_class Scan.type_char rest = false ->
  column_tokens (q1 ++ name ++ q2 ++ sp ++ ty ++ rest) = Some (name, ty).
Proof.
  intros _ Hq1 Hn Hname Hq2 Hs Hsp Ht Hty Hrest.
  now apply ScanFacts.tokens_shape.
Qed.

Lemma column_tokens_of_shape_witness :
  column_tokens ("`" ++ "name" ++ "`" ++ "  " ++ "VARCHAR(20)"
                 ++ " NOT NULL") =
  Some ("name" : str, "VARCHAR(20)" : str).
Proof.
  apply column_tokens_of_shape.
  - reflexivity.
  - right. exists "`"%char. split; reflexivity.
  - discriminate.
  - reflexivity.
  - right. exists "`"%char. split; reflexivity.
  - discriminate.
  - reflexivity.
  - discriminate.
  - reflexivity.
  - reflexivity.
Defined.

(** X2.  A clause of ASCII characters whose trimmed text holds no space
    character (a column declared by its name alone) yields no column:
    the loop of lines 28-37 leaves the collected columns as they are. *)
Theorem clause_without_space_dropped (acc : list (str * str)) (part : str) :
  Text.ascii_text part ->
  (forall c, In c (Text.strip part) -> Text.is_space c = false) ->
  parse_columns_step acc part = acc.
Proof.
  intros _ Hno. unfold parse_columns_step.
  destruct (skipped_clause (Text.strip part)); [reflexivity|].
  rewrite ScanFacts.column_tokens_scan. unfold Scan.column_scan.
  destruct (Scan.starts_with_class Text.is_word _); [|reflexivity].
  destruct (Scan.starts_with_class Text.is_space _) eqn:H3; [|reflexivity].
  exfalso. apply ScanFacts.starts_in in H3 as (c & Hin & Hc).
  apply ScanFacts.drop_if_in, ScanFacts.lstrip_by_in,
    ScanFacts.drop_if_in in Hin.
  rewrite (Hno c Hin) in Hc. discriminate.
Qed.

Lemma clause_without_space_dropped_witness :
  parse_columns_step [("a" : str, "INT" : str)] " price " =
  [("a" : str, "INT" : str)].
Proof.
  apply clause_without_space_dropped; [reflexivity|].
  intros c Hin. vm_compute in Hin.
  repeat (destruct Hin as [<- | Hin]; [reflexivity|]). contradiction.
Defined.

Module ColumnFacts.

Lemma mapper_range (t : str) : In (sqlite_type_to_mysql t) Scan.target_types.
Proof.
  unfold sqlite_type_to_mysql. set (u := Text.upper t).
  repeat match goal with
         | |- context [Text.contains ?kw u] =>
             destruct (Text.contains kw u); simpl; auto 10
         end.
Qed.

Lemma step_keeps (acc : list (str * str)) (part : str) :
  Forall Scan.well_formed acc ->
  Forall Scan.well_formed (parse_columns_step acc part) /\
  List.length (parse_columns_step acc part) <= S (List.length acc).
Proof.
  intros Hacc. unfold parse_columns_step.
  destruct (skipped_clause (Text.strip part)); [split; [exact Hacc | lia]|].
  destruct (column_tokens (Text.strip part)) as [[name ty]|] eqn:E;
    [|split; [exact Hacc | lia]].
  apply ScanFacts.column_tokens_inv in E as (Hn & Hw & _).
  split.
  - apply Forall_app. split; [exact Hacc|]. constructor; [|constructor].
    repeat split; trivial. apply mapper_range.
  - rewrite length_app. simpl. lia.
Qed.

Lemma fold_keeps (parts : list str) (acc : list (str * str)) :
  Forall Scan.well_formed acc ->
  Forall Scan.well_formed (fold_left parse_columns_step parts acc) /\
  List.length (fold_left parse_columns_step parts acc)
    <= List.length parts + List.length acc.
Proof.
  revert acc. induction parts as [|part parts IH]; intros acc Hacc; simpl.
  - split; [exact Hacc | lia].
  - destruct (step_keeps part Hacc) as [Hwf Hlen].
    destruct (IH _ Hwf) as [Hwf' Hlen']. split; [exact Hwf' | lia].
Qed.

End ColumnFacts.

(** X3.  Every column that [parse_columns] returns for a creation text
    of ASCII characters has a name that is a non-empty run of word
    characters and a type among INT, TEXT, BLOB, DOUBLE and DATETIME;
    and there are at most as many columns as line 27 makes pieces of
    the column list (which may be more than the list has clauses). *)
Theorem parse_columns_well_formed (schema : str) :
  Text.ascii_text schema ->
  Forall Scan.well_formed (parse_columns schema) /\
  match column_clauses schema with
  | Some parts => List.length (parse_columns schema) <= List.length parts
  | None => parse_columns schema = []
  end.
Proof.
  intros _. unfold parse_columns.
  destruct (column_clauses schema) as [parts|]; [|split; [constructor | reflexivity]].
  destruct (@ColumnFacts.fold_keeps parts [] (Forall_nil _)) as [Hwf Hlen].
  split; [exact Hwf | simpl in Hlen; lia].
Qed.

Lemma parse_columns_well_formed_witness :
  Text.ascii_text "CREATE TABLE t (a INT CHECK (f(a, b + g(c)) > 0), d)" /\
  parse_columns "CREATE TABLE t (a INT CHECK (f(a, b + g(c)) > 0), d)" =
    [("a" : str, "INT" : str); ("b" : str, "TEXT" : str)] /\
  Forall Scan.well_formed
    (parse_columns "CREATE TABLE t (a INT CHECK (f(a, b + g(c)) > 0), d)").
Proof.
  assert (Hascii : Text.ascii_text
                     "CREATE TABLE t (a INT CHECK (f(a, b + g(c)) > 0), d)")
    by reflexivity.
  split; [exact Hascii | split; [reflexivity|]].
  exact (proj1 (parse_columns_well_formed Hascii)).
Defined.

(** ** The column list and its clauses *)

Module ListFacts.
Import Re ReFacts Scan.

Section Last.

Variable R : Type.
Variable k : str -> captures -> option R.
Variable caps : captures.

(** The greedy run of any characters, followed by a continuation that
    wants a closing parenthesis, stops before the last one. *)
Lemma star_any_none (post : str) :
  (forall t, k t caps <> None -> exists t', t = ")"%char :: t') ->
  ~ In ")"%char post ->
  star_chr (fun _ => true) k caps post = None.
Proof.
  intros Hk. induction post as [|c post IH]; intros Hno.
  - simpl. destruct (k [] caps) eqn:E; [|reflexivity].
    destruct (Hk []) as (t' & Ht); [congruence | discriminate].
  - simpl. rewrite IH by (intros H; apply Hno; now right).
    destruct (k (c :: post) caps) eqn:E; [|reflexivity].
    destruct (Hk (c :: post)) as (t' & Ht); [congruence|].
    injection Ht as -> _. exfalso. apply Hno. now left.
Qed.

Lemma star_any_last (inner post : str) :
  (forall t, k t caps <> None -> exists t', t = ")"%char :: t') ->
  ~ In ")"%char post ->
  k (")"%char :: post) caps <> None ->
  star_chr (fun _ => true) k caps (inner ++ ")"%char :: post) =
  k (")"%char :: post) caps.
Proof.
  intros Hk Hno Hsome. induction inner as [|c inner IH]; simpl.
  - now rewrite star_any_none.
  - rewrite IH.
    destruct (k (")"%char :: post) caps); [reflexivity | contradiction].
Qed.

End Last.

Lemma match_at_column_list (inner post : str) :
  ~ In ")"%char post ->
  match_at re_column_list ("("%char :: inner ++ ")"%char :: post) =
  Some (post, [(1, inner)]).
Proof.
  intros Hno. unfold match_at, re_column_list, lit.
  rewrite exec_cat, exec_chr. cbv beta iota. rewrite Ascii.eqb_refl.
  rewrite exec_cat, exec_group, exec_star_chr.
  rewrite star_any_last; trivial.
  - rewrite exec_chr, Ascii.eqb_refl.
    now rewrite IndexFacts.firstn_group.
  - intros t Ht. rewrite exec_chr in Ht.
    destruct t as [|c t]; [contradiction|].
    destruct (Ascii.eqb_spec ")"%char c) as [<-|_]; [|contradiction].
    now exists t.
  - rewrite exec_chr, Ascii.eqb_refl. discriminate.
Qed.

Lemma match_at_column_list_other (c : ascii) (s : str) :
  c <> "("%char -> match_at re_column_list (c :: s) = None.
Proof.
  intros Hc. unfold match_at, re_column_list, lit.
  rewrite exec_cat, exec_chr.
  destruct (Ascii.eqb_spec "("%char c) as [<-|_];
    [contradiction | reflexivity].
Qed.

Lemma search_column_list (pre inner post : str) :
  ~ In "("%char pre -> ~ In ")"%char post ->
  re_search re_column_list (pre ++ "("%char :: inner ++ ")"%char :: post) =
  Some [(1, inner)].
Proof.
  intros Hpre Hpost. induction pre as [|c pre IH].
  - rewrite IndexFacts.re_search_eq. simpl app.
    now rewrite match_at_column_list.
  - rewrite IndexFacts.re_search_eq. simpl app.
    rewrite match_at_column_list_other
      by (intros ->; apply Hpre; now left).
    apply IH. intros H. apply Hpre. now right.
Qed.

End ListFacts.

(** X4.  The column list that [parse_columns] reads is what stands
    between the first opening parenthesis of the text and its last
    closing parenthesis: what comes before or after them plays no part,
    and parentheses in between stay inside the list. *)
Theorem column_list_extent (pre inner post : str) :
  ~ In "("%char pre -> ~ In ")"%char post ->
  column_clauses (pre ++ "("%char :: inner ++ ")"%char :: post) =
    Some (Re.re_split re_clause_comma inner) /\
  parse_columns (pre ++ "("%char :: inner ++ ")"%char :: post) =
    parse_columns ("("%char :: inner ++ [")"%char]).
Proof.
  intros Hpre Hpost.
  assert (H1 : column_clauses (pre ++ "("%char :: inner ++ ")"%char :: post)
               = Some (Re.re_split re_clause_comma inner))
    by (unfold column_clauses;
        now rewrite ListFacts.search_column_list).
  assert (H2 : column_clauses ("("%char :: inner ++ [")"%char])
               = Some (Re.re_split re_clause_comma inner))
    by (unfold column_clauses;
        change ("("%char :: inner ++ [")"%char])
          with ([] ++ "("%char :: inner ++ ")"%char :: []);
        now rewrite ListFacts.search_column_list).
  split; [exact H1|]. unfold parse_columns. now rewrite H1, H2.
Qed.

Lemma column_list_extent_witness :
  column_clauses ("CREATE TABLE t " ++ "("%char :: "a NUMERIC(5,2), b INT"
                  ++ ")"%char :: " WITHOUT ROWID") =
    Some (Re.re_split re_clause_comma "a NUMERIC(5,2), b INT").
Proof.
  apply column_list_extent.
  - intros Hin. vm_compute in Hin.
    repeat (destruct Hin as [Hin | Hin]; [discriminate Hin|]).
    contradiction.
  - intros Hin. vm_compute in Hin.
    repeat (destruct Hin as [Hin | Hin]; [discriminate Hin|]).
    contradiction.
Defined.

Module SplitJoinFacts.
Import Re Scan.

Lemma split_loop_cons (r : regex) (piece : str) (c : ascii) (s : str) :
  split_loop r 0 piece (c :: s) =
  match match_at r (c :: s) with
  | Some (rest, _) =>
      match List.length (c :: s) - List.length rest with
      | S n => rev piece :: split_loop r n [] s
      | O => split_loop r 0 (c :: piece) s
      end
  | None => split_loop r 0 (c :: piece) s
  end.
Proof. reflexivity. Qed.

Lemma split_loop_skip (r : regex) (piece skipped s : str) :
  split_loop r (List.length skipped) piece (skipped ++ s) =
  split_loop r 0 piece s.
Proof. induction skipped as [|c skipped IH]; simpl; [reflexivity | exact IH]. Qed.

Lemma closes_first_app (u t : str) :
  closes_first u = true -> closes_first (u ++ t) = true.
Proof.
  unfold closes_first. induction u as [|c u IH]; simpl; [discriminate|].
  destruct (not_paren c); [exact IH|]. now destruct c as [[] [] [] [] [] [] [] []].
Qed.

Lemma closes_first_other (c : ascii) (u : str) :
  not_paren c = true -> closes_first (c :: u) = closes_first u.
Proof. intros Hc. unfold closes_first. simpl. now rewrite Hc. Qed.

Lemma closes_first_spaces (sp u : str) :
  forallb Text.is_space sp = true -> closes_first (sp ++ u) = closes_first u.
Proof.
  induction sp as [|c sp IH]; simpl; [reflexivity|].
  intros H. apply andb_true_iff in H as [Hc Hsp].
  rewrite closes_first_other by now apply SplitFacts.space_not_paren.
  now apply IH.
Qed.

(** A balanced clause does not make the first parenthesis a closing
    one. *)
Lemma closes_first_clause (c t : str) :
  clause_scan 0 c = true -> closes_first t = false ->
  closes_first (c ++ t) = false.
Proof.
  intros Hc Ht. induction c as [|x c IH]; simpl; [exact Ht|].
  simpl in Hc.
  destruct (Ascii.eqb_spec x "(") as [->|H1]; [reflexivity|].
  destruct (Ascii.eqb_spec x ")") as [->|H2]; [discriminate|].
  destruct (Ascii.eqb_spec x ",") as [->|H3]; [discriminate|].
  rewrite closes_first_other.
  - now apply IH.
  - destruct x as [[] [] [] [] [] [] [] []]; try reflexivity;
      contradiction.
Qed.

Section Joined.

Variable sp : str.
Hypothesis sp_spaces : forallb Text.is_space sp = true.

Let sep : str := ","%char :: sp.

Lemma closes_first_tail (cs : list str) :
  Forall plain_clause cs -> closes_first (join_tail sep cs) = false.
Proof.
  induction 1 as [|c cs [Hc _] Hcs IH]; [reflexivity|].
  unfold join_tail. unfold sep at 1. simpl app.
  rewrite closes_first_other by reflexivity.
  rewrite closes_first_spaces by exact sp_spaces.
  destruct cs as [|c2 cs].
  - simpl. rewrite <- (app_nil_r c). now apply closes_first_clause.
  - change (Text.join sep (c :: c2 :: cs))
      with (c ++ join_tail sep (c2 :: cs)).
    now apply closes_first_clause.
Qed.

Lemma join_cons (c : str) (cs : list str) :
  Text.join sep (c :: cs) = c ++ join_tail sep cs.
Proof. destruct cs; simpl; [now rewrite app_nil_r | reflexivity]. Qed.

Lemma no_leading_space (cs : list str) :
  Forall plain_clause cs ->
  starts_with_class Text.is_space (Text.join sep cs) = false.
Proof.
  intros H. destruct H as [|c cs [_ Hc] Hcs]; [reflexivity|].
  rewrite join_cons. destruct c as [|x c]; [|exact Hc].
  simpl. now destruct cs.
Qed.

Lemma lstrip_no_leading (s : str) :
  starts_with_class Text.is_space s = false ->
  Text.lstrip_by Text.is_space s = s.
Proof. destruct s as [|c s]; simpl; [reflexivity | now intros ->]. Qed.

(** Scanning the rest [u] of a clause, then the clauses that follow. *)
Lemma split_clauses (cs : list str) :
  Forall plain_clause cs ->
  forall (u : str) (depth : nat) (piece : str),
    clause_scan depth u = true ->
    split_loop re_clause_comma 0 piece (u ++ join_tail sep cs) =
    (rev piece ++ u) :: cs.
Proof.
  induction 1 as [|c2 cs Hc2 Hcs IHcs]; intros u.
  - induction u as [|x u IHu]; intros depth piece Hu.
    + simpl. now rewrite app_nil_r.
    + simpl app. rewrite split_loop_cons, SplitFacts.separator_match.
      simpl in Hu.
      assert (Hgo : forall d, clause_scan d u = true ->
                 split_loop re_clause_comma 0 (x :: piece)
                   (u ++ join_tail sep []) = (rev piece ++ x :: u) :: []).
      { intros d Hd. rewrite (IHu d _ Hd). simpl.
        now rewrite <- app_assoc. }
      destruct (Ascii.eqb_spec x "(") as [->|H1]; [now apply (Hgo _ Hu)|].
      destruct (Ascii.eqb_spec x ")") as [->|H2].
      { destruct depth; [discriminate | now apply (Hgo _ Hu)]. }
      destruct (Ascii.eqb_spec x ",") as [->|H3].
      { apply andb_true_iff in Hu as [Hu Hd].
        apply andb_true_iff in Hu as [_ Hcl].
        rewrite (@closes_first_app _ _ Hcl). now apply (Hgo _ Hd). }
      destruct x as [[] [] [] [] [] [] [] []];
        try (now apply (Hgo _ Hu)); contradiction.
  - induction u as [|x u IHu]; intros depth piece Hu.
    + change ([] ++ join_tail sep (c2 :: cs))
        with (","%char :: sp ++ Text.join sep (c2 :: cs)).
      rewrite join_cons.
      rewrite split_loop_cons, SplitFacts.separator_match.
      assert (Hcl : closes_first (sp ++ c2 ++ join_tail sep cs) = false).
      { rewrite closes_first_spaces by exact sp_spaces.
        apply closes_first_clause; [apply Hc2|].
        now apply closes_first_tail. }
      rewrite Hcl.
      assert (Hstrip : Text.lstrip_by Text.is_space
                         (sp ++ c2 ++ join_tail sep cs)
                       = c2 ++ join_tail sep cs).
      { rewrite ScanFacts.lstrip_by_app; trivial.
        rewrite <- join_cons. apply no_leading_space.
        now constructor. }
      rewrite Hstrip.
      replace (List.length (","%char :: sp ++ c2 ++ join_tail sep cs)
               - List.length (c2 ++ join_tail sep cs))
        with (S (List.length sp))
        by (cbn [List.length]; rewrite !length_app; lia).
      rewrite split_loop_skip.
      rewrite (IHcs c2 0 [] (proj1 Hc2)). simpl.
      now rewrite app_nil_r.
    + simpl app. rewrite split_loop_cons, SplitFacts.separator_match.
      simpl in Hu.
      assert (Hgo : forall d, clause_scan d u = true ->
                 split_loop re_clause_comma 0 (x :: piece)
                   (u ++ join_tail sep (c2 :: cs)) =
                 (rev piece ++ x :: u) :: c2 :: cs).
      { intros d Hd. rewrite (IHu d _ Hd). simpl.
        now rewrite <- app_assoc. }
      destruct (Ascii.eqb_spec x "(") as [->|H1]; [now apply (Hgo _ Hu)|].
      destruct (Ascii.eqb_spec x ")") as [->|H2].
      { destruct depth; [discriminate | now apply (Hgo _ Hu)]. }
      destruct (Ascii.eqb_spec x ",") as [->|H3].
      { apply andb_true_iff in Hu as [Hu Hd].
        apply andb_true_iff in Hu as [_ Hcl].
        rewrite (@closes_first_app _ _ Hcl). now apply (Hgo _ Hd). }
      destruct x as [[] [] [] [] [] [] [] []];
        try (now apply (Hgo _ Hu)); contradiction.
Qed.

Lemma split_join (c : str) (cs : list str) :
  Forall plain_clause (c :: cs) ->
  re_split re_clause_comma (Text.join sep (c :: cs)) = c :: cs.
Proof.
  intros H. inversion H as [|c' cs' Hc Hcs]; subst.
  unfold re_split. rewrite join_cons.
  now rewrite (split_clauses Hcs c 0 [] (proj1 Hc)).
Qed.

End Joined.

End SplitJoinFacts.

(** X5.  When the creation text is made of ASCII characters and its
    column list of clauses joined by a comma and any run of spaces, each clause with balanced parentheses, no comma
    outside them, no opening parenthesis between a comma inside them and
    the next closing one, and no space at its start, the clauses of
    line 27 are exactly these clauses, and [parse_columns] is the loop
    of lines 28-37 over them. *)
Theorem clauses_of_joined_list (pre post sp c : str) (cs : list str) :
  Text.ascii_text
    (pre ++ "("%char :: Text.join (","%char :: sp) (c :: cs)
         ++ ")"%char :: post) ->
  ~ In "("%char pre -> ~ In ")"%char post ->
  forallb Text.is_space sp = true ->
  Forall Scan.plain_clause (c :: cs) ->
  column_clauses
    (pre ++ "("%char :: Text.join (","%char :: sp) (c :: cs)
         ++ ")"%char :: post) = Some (c :: cs) /\
  parse_columns
    (pre ++ "("%char :: Text.join (","%char :: sp) (c :: cs)
         ++ ")"%char :: post) = fold_left parse_columns_step (c :: cs) [].
Proof.
  intros _ Hpre Hpost Hsp Hcs.
  assert (H : column_clauses
                (pre ++ "("%char :: Text.join (","%char :: sp) (c :: cs)
                     ++ ")"%char :: post) = Some (c :: cs)).
  { unfold column_clauses.
    rewrite ListFacts.search_column_list by assumption.
    cbn [Re.group Nat.eqb].
    now rewrite SplitJoinFacts.split_join. }
  split; [exact H|]. unfold parse_columns. now rewrite H.
Qed.

Lemma clauses_of_joined_list_witness :
  column_clauses
    ("CREATE TABLE t " ++ "("%char
       :: Text.join (","%char :: " ")
            ["id INTEGER PRIMARY KEY" : str; "price DECIMAL(10,2)" : str;
             "CHECK (f(g(id), price) > 0)" : str]
       ++ ")"%char :: []) =
  Some ["id INTEGER PRIMARY KEY" : str; "price DECIMAL(10,2)" : str;
        "CHECK (f(g(id), price) > 0)" : str].
Proof.
  apply clauses_of_joined_list.
  - reflexivity.
  - intros Hin. vm_compute in Hin.
    repeat (destruct Hin as [Hin | Hin]; [discriminate Hin|]).
    contradiction.
  - intros [].
  - reflexivity.
  - repeat constructor.
Defined.

Module StripFacts.
Import Scan.

Lemma lstrip_keep (p : ascii -> bool) (x b : str) :
  starts_with_class p b = false ->
  Text.lstrip_by p (x ++ b) = Text.lstrip_by p x ++ b.
Proof.
  intros Hb. induction x as [|c x IH]; simpl.
  - destruct b as [|d b]; [reflexivity|]. simpl in *. now rewrite Hb.
  - now destruct (p c).
Qed.

Lemma forallb_rev (p : ascii -> bool) (s : str) :
  forallb p (rev s) = forallb p s.
Proof.
  induction s as [|c s IH]; simpl; [reflexivity|].
  rewrite forallb_app, IH. simpl. rewrite andb_true_r. apply andb_comm.
Qed.

(** Stripping the right end leaves untouched a text that ends with a
    character outside the class. *)
Lemma rstrip_keep (p : ascii -> bool) (a rest : str) :
  starts_with_class p (rev a) = false ->
  Text.rstrip_by p (a ++ rest) = a ++ Text.rstrip_by p rest.
Proof.
  intros Ha. unfold Text.rstrip_by.
  now rewrite rev_app_distr, lstrip_keep, rev_app_distr, rev_involutive.
Qed.

Lemma rstrip_prefix (p : ascii -> bool) (s : str) :
  exists x, s = Text.rstrip_by p s ++ x.
Proof.
  unfold Text.rstrip_by. exists (rev (take_while p (rev s))).
  rewrite <- rev_app_distr, ScanFacts.take_drop_while.
  now rewrite rev_involutive.
Qed.

Lemma rstrip_starts (p q : ascii -> bool) (s : str) :
  starts_with_class q s = false ->
  starts_with_class q (Text.rstrip_by p s) = false.
Proof.
  intros Hs. destruct (rstrip_prefix p s) as [x Hx].
  destruct (Text.rstrip_by p s) as [|c r]; [reflexivity|].
  rewrite Hx in Hs. exact Hs.
Qed.

End StripFacts.

Module ClauseParse.
Import Scan.

Section OneClause.

Variables name ty rest : str.
Hypothesis Htyped : typed_clause (name, ty, rest).

Lemma clause_strip :
  Text.strip (column_clause name ty rest) =
  name ++ " " ++ ty ++ Text.rstrip_by Text.is_space rest.
Proof.
  destruct Htyped as (Hn & Hname & Ht & Hty & _).
  unfold Text.strip, Text.strip_by, column_clause.
  rewrite SplitJoinFacts.lstrip_no_leading
    by (apply ScanFacts.starts_other_class with (q := Text.is_word);
        auto using ScanFacts.word_not_space).
  replace (name ++ " " ++ ty ++ rest) with ((name ++ " " ++ ty) ++ rest)
    by now rewrite <- !app_assoc.
  rewrite StripFacts.rstrip_keep; [now rewrite <- !app_assoc|].
  rewrite !rev_app_distr, <- app_assoc.
  apply ScanFacts.starts_other_class with (q := type_char).
  - apply ScanFacts.type_char_not_space.
  - intros E. apply (f_equal (@rev ascii)) in E.
    rewrite rev_involutive in E. now apply Ht.
  - now rewrite StripFacts.forallb_rev.
Qed.

Lemma clause_step (acc : list (str * str)) :
  parse_columns_step acc (column_clause name ty rest) =
  acc ++ [(name, sqlite_type_to_mysql ty)].
Proof.
  pose proof Htyped as (Hn & Hname & Ht & Hty & Hrest & _ & Hskip).
  unfold parse_columns_step. rewrite Hskip, clause_strip.
  change (name ++ " " ++ ty ++ Text.rstrip_by Text.is_space rest)
    with ([] ++ name ++ [] ++ " " ++ ty
          ++ Text.rstrip_by Text.is_space rest).
  rewrite ScanFacts.tokens_shape; trivial; try (now left);
    try discriminate.
  now apply StripFacts.rstrip_starts.
Qed.

Lemma clause_plain : plain_clause (column_clause name ty rest).
Proof.
  destruct Htyped as (Hn & Hname & _ & _ & _ & Hscan & _).
  split; [exact Hscan|]. unfold column_clause.
  apply ScanFacts.starts_other_class with (q := Text.is_word);
    auto using ScanFacts.word_not_space.
Qed.

End OneClause.

Lemma clauses_plain (ts : list (str * str * str)) :
  Forall typed_clause ts -> Forall plain_clause (map render_clause ts).
Proof.
  induction 1 as [|[[name ty] rest] ts Ht Hts IH]; simpl; constructor.
  - now apply clause_plain.
  - exact IH.
Qed.

Lemma clauses_fold (ts : list (str * str * str)) (acc : list (str * str)) :
  Forall typed_clause ts ->
  fold_left parse_columns_step (map render_clause ts) acc =
  acc ++ map parsed_column ts.
Proof.
  intros H. revert acc.
  induction H as [|[[name ty] rest] ts Ht Hts IH]; intros acc; simpl.
  - now rewrite app_nil_r.
  - rewrite (clause_step Ht), IH. now rewrite <- app_assoc.
Qed.

End ClauseParse.

(** X6.  In a creation text of ASCII characters, a column list written
    as clauses [name type rest] joined by a comma and any run of spaces is
    read back by [parse_columns] as the
    names in order, each with the mapped type of its type token, when
    each name is made of word characters, each type token is without
    space and comma, what follows it starts with a space, and the clause
    is one that line 27 leaves whole and line 31 does not skip. *)
Theorem parse_typed_clauses (pre post sp : str) (t : str * str * str)
        (ts : list (str * str * str)) :
  Text.ascii_text
    (pre ++ "("%char
         :: Text.join (","%char :: sp) (map Scan.render_clause (t :: ts))
         ++ ")"%char :: post) ->
  ~ In "("%char pre -> ~ In ")"%char post ->
  forallb Text.is_space sp = true ->
  Forall Scan.typed_clause (t :: ts) ->
  parse_columns
    (pre ++ "("%char
         :: Text.join (","%char :: sp) (map Scan.render_clause (t :: ts))
         ++ ")"%char :: post) =
  map Scan.parsed_column (t :: ts).
Proof.
  intros _ Hpre Hpost Hsp Hts.
  unfold parse_columns, column_clauses.
  rewrite ListFacts.search_column_list by assumption.
  cbn [Re.group Nat.eqb].
  change (map Scan.render_clause (t :: ts))
    with (Scan.render_clause t :: map Scan.render_clause ts).
  rewrite SplitJoinFacts.split_join
    by (trivial; now apply (ClauseParse.clauses_plain Hts)).
  change (Scan.render_clause t :: map Scan.render_clause ts)
    with (map Scan.render_clause (t :: ts)).
  now rewrite (ClauseParse.clauses_fold [] Hts).
Qed.

Lemma parse_typed_clauses_witness :
  parse_columns
    ("CREATE TABLE users " ++ "("%char
       :: Text.join (","%char :: " ")
            (map Scan.render_clause
               [("id" : str, "INTEGER" : str, " PRIMARY KEY" : str);
                ("name" : str, "VARCHAR(20)" : str, " NOT NULL" : str);
                ("joined" : str, "TIMESTAMP" : str, [])])
       ++ ")"%char :: []) =
  map Scan.parsed_column
    [("id" : str, "INTEGER" : str, " PRIMARY KEY" : str);
     ("name" : str, "VARCHAR(20)" : str, " NOT NULL" : str);
     ("joined" : str, "TIMESTAMP" : str, [])].
Proof.
  apply parse_typed_clauses.
  - reflexivity.
  - intros Hin. vm_compute in Hin.
    repeat (destruct Hin as [Hin | Hin]; [discriminate Hin|]).
    contradiction.
  - intros [].
  - reflexivity.
  - repeat constructor; discriminate.
Defined.

(** ** The index rows *)

Module IndexRowFacts.
Import Scan.

Lemma str_eqb_eq (a b : str) : str_eqb a b = true <-> a = b.
Proof.
  unfold str_eqb. destruct (list_eq_dec ascii_dec a b); split;
    trivial; try discriminate; contradiction.
Qed.

Lemma index_rows_in (value : Type) (conn : sqlite_conn value)
      (table name sql : str) :
  In (name, sql) (index_rows conn table) <->
  exists r, In r (sqlite_master conn) /\ m_type r = "index" /\
            m_tbl_name r = table /\ m_sql r = Some sql /\ m_name r = name.
Proof.
  unfold index_rows. rewrite in_flat_map. split.
  - intros (r & Hr & Hin). exists r.
    destruct (str_eqb (m_type r) "index") eqn:E1; [|contradiction].
    destruct (str_eqb (m_tbl_name r) table) eqn:E2; [|contradiction].
    simpl in Hin. destruct (m_sql r) as [sql'|]; [|contradiction].
    destruct Hin as [Hin | []]. injection Hin as <- <-.
    apply str_eqb_eq in E1, E2. now repeat split.
  - intros (r & Hr & Ht & Htbl & Hsql & Hname). exists r.
    split; [exact Hr|].
    rewrite (proj2 (str_eqb_eq _ _) Ht), (proj2 (str_eqb_eq _ _) Htbl), Hsql.
    simpl. left. now rewrite Hname.
Qed.

Lemma split_char_nonempty (sep : ascii) (s : str) :
  Text.split_char sep s <> [].
Proof.
  induction s as [|c s IH]; simpl; [discriminate|].
  destruct (Ascii.eqb c sep); [discriminate|].
  destruct (Text.split_char sep s); discriminate.
Qed.

Lemma lstrip_starts (p : ascii -> bool) (s : str) :
  starts_with_class p (Text.lstrip_by p s) = false.
Proof.
  induction s as [|c s IH]; simpl; [reflexivity|].
  destruct (p c) eqn:Hc; [exact IH | simpl; exact Hc].
Qed.

Lemma strip_by_ends (p : ascii -> bool) (s : str) :
  starts_with_class p (Text.strip_by p s) = false /\
  starts_with_class p (rev (Text.strip_by p s)) = false.
Proof.
  unfold Text.strip_by. split.
  - apply StripFacts.rstrip_starts, lstrip_starts.
  - unfold Text.rstrip_by. rewrite rev_involutive. apply lstrip_starts.
Qed.

Lemma step_descr (name sql : str) (d : index_descr) :
  In d (get_indexes_step [] (name, sql)) ->
  get_indexes_step [] (name, sql) = [d] /\
  idx_name d = name /\ idx_columns d <> [] /\
  Forall unquoted (idx_columns d).
Proof.
  unfold get_indexes_step.
  destruct (Re.re_search re_index_columns sql) as [m|]; [|intros []].
  destruct (Re.group m 1) as [inner|]; [|intros []].
  simpl. intros [<- | []]. simpl. repeat split.
  - intros E. apply map_eq_nil in E.
    now apply (@split_char_nonempty _ _ E).
  - apply Forall_forall. intros col Hcol.
    apply in_map_iff in Hcol as (x & <- & _).
    unfold clean_column, Text.strip_chars. apply strip_by_ends.
Qed.

End IndexRowFacts.

(** X7.  [get_indexes] returns the descriptors of exactly those rows of
    the catalog that are indexes of the given table with a creation
    text that is not NULL and has a group of columns: an index of
    another table, or one without text, gives nothing. *)
Theorem get_indexes_provenance (value : Type) (conn : sqlite_conn value)
        (table : str) (d : index_descr) :
  In d (get_indexes conn table) <->
  exists r sql,
    In r (sqlite_master conn) /\ m_type r = "index" /\
    m_tbl_name r = table /\ m_sql r = Some sql /\
    get_indexes_step [] (m_name r, sql) = [d].
Proof.
  unfold get_indexes. rewrite IndexStepFacts.fold_steps, app_nil_l.
  rewrite in_flat_map. split.
  - intros ([name sql] & Hrow & Hd).
    apply IndexRowFacts.index_rows_in in Hrow
      as (r & Hr & Ht & Htbl & Hsql & <-).
    exists r, sql. repeat split; trivial.
    now apply IndexRowFacts.step_descr.
  - intros (r & sql & Hr & Ht & Htbl & Hsql & Hstep).
    exists (m_name r, sql). split.
    + apply IndexRowFacts.index_rows_in. now exists r.
    + rewrite Hstep. now left.
Qed.

(** X8.  Every descriptor that [get_indexes] returns has at least one
    column, and none of its column names begins or ends with a
    backquote, a double quote or a square bracket. *)
Theorem index_columns_unquoted (value : Type) (conn : sqlite_conn value)
        (table : str) (d : index_descr) :
  In d (get_indexes conn table) ->
  idx_columns d <> [] /\ Forall unquoted (idx_columns d).
Proof.
  unfold get_indexes. rewrite IndexStepFacts.fold_steps, app_nil_l.
  rewrite in_flat_map. intros ([name sql] & _ & Hd).
  now apply IndexRowFacts.step_descr in Hd as (_ & _ & Hne & Hq).
Qed.

Lemma index_columns_unquoted_witness :
  idx_columns {| idx_name := "ix"; idx_unique := false;
                 idx_columns := ["name" : str] |} <> [] /\
  Forall unquoted
    (idx_columns {| idx_name := "ix"; idx_unique := false;
                    idx_columns := ["name" : str] |}).
Proof.
  apply (@index_columns_unquoted _ Sample.shop "users").
  left. reflexivity.
Defined.

(** ** The table loop *)

(** X9.  For every table that [get_tables] returns, the query of lines
    76-77 finds a row: the first table row of the catalog with this
    name.  The test of line 78 can then fail only on a creation text
    that is NULL or empty. *)
Theorem discovered_table_has_row (value : Type) (conn : sqlite_conn value)
        (table : str) :
  In table (get_tables conn) ->
  exists r,
    In r (sqlite_master conn) /\ m_type r = "table" /\ m_name r = table /\
    fetch_schema conn table = Some (m_sql r).
Proof.
  intros Hin. unfold get_tables in Hin.
  apply in_map_iff in Hin as (r0 & Hname & Hr0).
  apply filter_In in Hr0 as [Hr0 _]. apply filter_In in Hr0 as [Hr0 Ht0].
  unfold fetch_schema.
  destruct (filter (fun r => str_eqb (m_type r) "table"
                             && str_eqb (m_name r) table)
              (sqlite_master conn)) as [|r rows] eqn:E.
  - exfalso.
    assert (Hin : In r0 (filter (fun r => str_eqb (m_type r) "table"
                                          && str_eqb (m_name r) table)
                           (sqlite_master conn))).
    { apply filter_In. split; [exact Hr0|].
      rewrite Ht0. simpl. now apply IndexRowFacts.str_eqb_eq. }
    rewrite E in Hin. contradiction.
  - assert (Hin : In r (filter (fun r => str_eqb (m_type r) "table"
                                         && str_eqb (m_name r) table)
                          (sqlite_master conn)))
      by (rewrite E; now left).
    apply filter_In in Hin as [Hr Hp].
    apply andb_true_iff in Hp as [Ht Hn].
    apply IndexRowFacts.str_eqb_eq in Ht, Hn.
    exists r. now repeat split.
Qed.

Lemma discovered_table_has_row_witness :
  exists r,
    In r (sqlite_master Sample.shop) /\ m_type r = "table" /\
    m_name r = "ghost" /\
    fetch_schema Sample.shop "ghost" = Some (m_sql r).
Proof.
  apply discovered_table_has_row. right. left. reflexivity.
Defined.

(** X10.  Whatever the target answers and whatever the batch size, the
    statements a run executes are the first statements of its plan, in
    the order of the plan, and the whole plan when the run returns: an
    outcome on the target never changes which statement comes next. *)
Theorem run_follows_plan (value : Type) (T : target value)
        (conn : sqlite_conn value) (batch_size : Z) (s0 : tstate T) :
  let out := main conn batch_size (start T s0) in
  exists rest,
    plan conn batch_size = executed (asked (fst out)) ++ rest /\
    (snd out = Some tt -> rest = []).
Proof.
  intros out.
  destruct (@RunFacts.main_outcome _ T conn batch_size s0)
    as [(Hret & _ & _ & He & _) | (Hnone & _ & _ & q & Hq)].
  - exists []. fold out in He. rewrite He, app_nil_r. now split.
  - exists q. fold out in Hnone. split; [exact Hq | congruence].
Qed.

(** X11.  A batch size of zero or less moves no row.  Once the rows
    are read, the batch loop makes no call on the target; with a
    negative size it returns as if the table had been moved, and with
    size zero it lets the exception of [range] escape as soon as the
    table has a row. *)
Theorem no_batch_without_positive_size (value : Type) (T : target value)
        (conn : sqlite_conn value) (table : str)
        (rows : list (list value)) (batch_size : Z) (w : world T) :
  (batch_size <= 0)%Z ->
  select_all conn table = Some rows ->
  let out := move_rows conn table batch_size w in
  asked (fst out) = asked w /\
  planned_batches rows batch_size = [] /\
  (snd out = None <-> batch_size = 0%Z /\ rows <> []).
Proof.
  intros Hb Hread out. unfold out, move_rows, planned_batches, py_range.
  rewrite Hread. clear Hread. destruct rows as [|row rows].
  - simpl. split; [reflexivity|]. split.
    + now destruct (batch_size =? 0)%Z.
    + split; [discriminate | now intros [_ H]].
  - destruct (Z.eqb_spec batch_size 0) as [->|Hne].
    + simpl. split; [reflexivity|]. split; [reflexivity|].
      split; [now split | reflexivity].
    + assert (Hempty : range_from
                         (Z.abs_nat (Z.of_nat (List.length (row :: rows)) - 0))
                         0 (Z.of_nat (List.length (row :: rows))) batch_size
                       = []).
      { destruct (Z.abs_nat _); [reflexivity|]. simpl range_from.
        replace (0 <? batch_size)%Z with false
          by (symmetry; apply Z.ltb_ge; lia).
        replace (Z.of_nat (List.length (row :: rows)) <? 0)%Z with false
          by (symmetry; apply Z.ltb_ge; lia).
        now rewrite andb_false_r. }
      rewrite Hempty. simpl. split; [reflexivity|]. split; [reflexivity|].
      split; [discriminate | now intros [H _]].
Qed.

Lemma no_batch_without_positive_size_witness :
  (-5 <= 0)%Z /\
  select_all Sample.shop "users"
    = Some [ ["1" : str; "a" : str]; ["2" : str; "b" : str];
             ["3" : str; "c" : str] ] /\
  asked (fst (move_rows Sample.shop "users" (-5)
                (start Sample.willing tt))) = [] /\
  snd (move_rows Sample.shop "users" (-5) (start Sample.willing tt))
    = Some tt.
Proof.
  assert (Hb : (-5 <= 0)%Z) by lia.
  assert (Hread : select_all Sample.shop "users"
                  = Some [ ["1" : str; "a" : str]; ["2" : str; "b" : str];
                           ["3" : str; "c" : str] ]) by reflexivity.
  pose proof (@no_batch_without_positive_size _ Sample.willing Sample.shop
                "users" _ (-5) (start Sample.willing tt) Hb Hread) as H.
  cbv zeta in H. destruct H as (Ha & _ & _).
  split; [exact Hb | split; [exact Hread | split; [exact Ha | reflexivity]]].
Defined.

(** X12.  For a batch size of at least one, the parameters of the
    inserts that the batch loop executes, put end to end, are the cell
    values of the rows read from the table, row after row: every value
    is sent once, in source order, whether or not the inserts go
    through. *)
Theorem batch_values_conserved (value : Type) (T : target value)
        (conn : sqlite_conn value) (table : str)
        (rows : list (list value)) (batch_size : Z) (w : world T) :
  (1 <= batch_size)%Z ->
  select_all conn table = Some rows ->
  exists calls,
    asked (fst (move_rows conn table batch_size w)) = asked w ++ calls /\
    List.concat (map snd (executed calls)) = List.concat rows.
Proof.
  intros Hb Hread.
  destruct (@RunFacts.move_rows_isolated _ T conn table rows batch_size w)
    as (_ & da & dp & Ha & _ & He & _); [lia | exact Hread |].
  exists da. split; [exact Ha|].
  rewrite He, map_map. unfold insert_statement. simpl.
  rewrite <- (BatchShape.batches_concat rows (batch_size := batch_size))
    at 2 by lia.
  clear. induction (planned_batches rows batch_size)
    as [|b bs IH]; simpl; [reflexivity|].
  now rewrite concat_app, IH.
Qed.

Lemma batch_values_conserved_witness :
  (1 <= 2)%Z /\
  select_all Sample.shop "users"
    = Some [ ["1" : str; "a" : str]; ["2" : str; "b" : str];
             ["3" : str; "c" : str] ] /\
  exists calls,
    asked (fst (move_rows Sample.shop "users" 2
                  (start Sample.grudging tt))) = [] ++ calls /\
    List.concat (map snd (executed calls)) =
      ["1" : str; "a" : str; "2" : str; "b" : str; "3" : str; "c" : str].
Proof.
  assert (Hb : (1 <= 2)%Z) by lia.
  assert (Hread : select_all Sample.shop "users"
                  = Some [ ["1" : str; "a" : str]; ["2" : str; "b" : str];
                           ["3" : str; "c" : str] ]) by reflexivity.
  split; [exact Hb | split; [exact Hread|]].
  exact (@batch_values_conserved _ Sample.grudging Sample.shop "users" _ 2
           (start Sample.grudging tt) Hb Hread).
Defined.

(** ** Commits *)

Module OrderFacts.

Section Order.

Variable value : Type.
Variable T : target value.

Lemma track_app (p : bool) (a b : list (call value * bool)) :
  track p (a ++ b) =
  match track p a with
  | Some q => track q b
  | None => None
  end.
Proof.
  revert p. induction a as [|[[sql params|] ok] a IH]; intros p; simpl.
  - reflexivity.
  - apply IH.
  - destruct p; [apply IH | reflexivity].
Qed.

Lemma in_order_ret : in_order (@ret _ T unit tt).
Proof. intros w p H. now exists p. Qed.

Lemma in_order_raise : in_order (@raise _ T unit).
Proof. intros w p H. now exists p. Qed.

Lemma in_order_print (l : line) : in_order (@print _ T l).
Proof. intros w p H. now exists p. Qed.

Lemma in_order_close : in_order (@close_connections _ T).
Proof. intros w p H. now exists p. Qed.

Lemma in_order_execute (sql : str) (params : list value) :
  in_order (@cursor_execute _ T sql params).
Proof.
  intros w p H. unfold cursor_execute.
  destruct (execute T (server w) sql params) as [s ok]. simpl.
  exists ok. now rewrite track_app, H.
Qed.

Lemma in_order_bind (m1 m2 : M T unit) :
  in_order m1 -> in_order m2 -> in_order (bind m1 (fun _ => m2)).
Proof.
  intros H1 H2 w p H. unfold bind.
  destruct (H1 w p H) as [q Hq].
  destruct (m1 w) as [w1 [u|]]; simpl in *.
  - now apply (H2 w1 q).
  - now exists q.
Qed.

Lemma in_order_for_each (A : Type) (body : A -> M T unit) (l : list A) :
  (forall x, in_order (body x)) -> in_order (for_each l body).
Proof.
  intros Hbody. induction l as [|x l IH]; simpl.
  - apply in_order_ret.
  - now apply in_order_bind.
Qed.

(** A statement, then its commit when it went through, then [k]. *)
Lemma in_order_execute_commit (sql : str) (params : list value)
      (k : M T unit) :
  in_order k ->
  in_order (bind (@cursor_execute _ T sql params)
              (fun _ => bind (@conn_commit _ T) (fun _ => k))).
Proof.
  intros Hk w p H. unfold bind, cursor_execute, conn_commit.
  destruct (execute T (server w) sql params) as [s ok].
  destruct ok; simpl.
  - destruct (commit T s) as [s' ok']. destruct ok'; simpl.
    + eapply Hk. simpl. rewrite !track_app, H. reflexivity.
    + exists false. rewrite !track_app, H. reflexivity.
  - exists false. now rewrite track_app, H.
Qed.

Lemma in_order_try_index (sql name : str) :
  in_order (try_except (@cursor_execute _ T sql [])
              (print (IndexWarning name))).
Proof.
  intros w p H. unfold try_except, cursor_execute.
  destruct (execute T (server w) sql []) as [s ok].
  destruct ok; simpl; eexists; rewrite track_app, H; reflexivity.
Qed.

Lemma in_order_try_batch (sql table : str) (values : list value)
      (number : Z) :
  in_order (try_except
              (bind (@cursor_execute _ T sql values)
                 (fun _ => @conn_commit _ T))
              (print (BatchError number table))).
Proof.
  intros w p H. unfold try_except, bind, cursor_execute, conn_commit.
  destruct (execute T (server w) sql values) as [s ok].
  destruct ok; simpl.
  - destruct (commit T s) as [s' ok'].
    destruct ok'; simpl; eexists; rewrite !track_app, H; reflexivity.
  - eexists. rewrite track_app, H. reflexivity.
Qed.

Variable conn : sqlite_conn value.

Lemma in_order_migrate_table (batch_size : Z) (table : str) :
  in_order (@migrate_table _ T conn batch_size table).
Proof.
  unfold migrate_table.
  destruct (usable_schema (fetch_schema conn table)) as [schema|];
    [|apply in_order_ret].
  apply in_order_bind; [apply in_order_print|].
  apply in_order_bind; [apply in_order_print|].
  apply in_order_bind; [apply in_order_execute|].
  apply in_order_execute_commit.
  apply in_order_bind.
  - apply in_order_for_each. intros idx.
    apply in_order_bind; [apply in_order_print | apply in_order_try_index].
  - unfold move_rows. destruct (select_all conn table) as [[|row rows]|];
      [apply in_order_print | | apply in_order_raise].
    apply in_order_bind; [apply in_order_print|].
    destruct (py_range _ _ _) as [starts|]; [|apply in_order_raise].
    apply in_order_for_each. intros i. unfold move_batch.
    apply in_order_bind; [apply in_order_try_batch | apply in_order_print].
Qed.

Lemma in_order_main (batch_size : Z) :
  in_order (@main _ T conn batch_size).
Proof.
  unfold main.
  apply in_order_bind; [apply in_order_print|].
  apply in_order_bind.
  - apply in_order_for_each. intros table. apply in_order_migrate_table.
  - apply in_order_bind; [apply in_order_close | apply in_order_print].
Qed.

End Order.

End OrderFacts.

(** X13.  In every run, whatever the target answers, a commit is only
    ever made right after a statement that went through: never after a
    statement that raised, never twice in a row, never first. *)
Theorem commits_follow_success (value : Type) (T : target value)
        (conn : sqlite_conn value) (batch_size : Z) (s0 : tstate T) :
  commits_in_order (asked (fst (main conn batch_size (start T s0)))) = true.
Proof.
  destruct (@OrderFacts.in_order_main _ T conn batch_size (start T s0) false
              eq_refl) as [q Hq].
  unfold commits_in_order. now rewrite Hq.
Qed.

(** ** The lines of the batch loop *)

Module LineFacts.

Section Lines.

Variable value : Type.
Variable T : target value.

Lemma inserted_numbers_app (a b : list line) :
  inserted_numbers (a ++ b) = inserted_numbers a ++ inserted_numbers b.
Proof. apply flat_map_app. Qed.

Lemma announces_ret : announces (@ret _ T unit tt) [].
Proof.
  intros w. split; [reflexivity|]. exists []. simpl.
  now rewrite app_nil_r.
Qed.

Lemma announces_print (l : line) :
  announces (@print _ T l) (inserted_numbers [l]).
Proof. intros w. split; [reflexivity|]. now exists [l]. Qed.

Lemma announces_bind (m1 m2 : M T unit) (n1 n2 : list Z) :
  announces m1 n1 -> announces m2 n2 ->
  announces (bind m1 (fun _ => m2)) (n1 ++ n2).
Proof.
  intros H1 H2 w. unfold bind.
  destruct (H1 w) as (Hr1 & l1 & Hp1 & Hn1).
  destruct (m1 w) as [w1 r1]. simpl in *. subst r1.
  destruct (H2 w1) as (Hr2 & l2 & Hp2 & Hn2).
  split; [exact Hr2|]. exists (l1 ++ l2).
  rewrite Hp2, Hp1, app_assoc, inserted_numbers_app. split; congruence.
Qed.

Lemma announces_for_each (A : Type) (body : A -> M T unit)
      (f : A -> list Z) (l : list A) :
  (forall x, announces (body x) (f x)) ->
  announces (for_each l body) (flat_map f l).
Proof.
  intros Hbody. induction l as [|x l IH]; simpl.
  - apply announces_ret.
  - now apply announces_bind.
Qed.

Lemma announces_try_batch (sql table : str) (values : list value)
      (number : Z) :
  announces (try_except
               (bind (@cursor_execute _ T sql values)
                  (fun _ => @conn_commit _ T))
               (print (BatchError number table))) [].
Proof.
  intros w. unfold try_except, bind, cursor_execute, conn_commit.
  destruct (execute T (server w) sql values) as [s ok].
  destruct ok; simpl.
  - destruct (commit T s) as [s' ok']. destruct ok'; simpl.
    + split; [reflexivity|]. exists []. now rewrite app_nil_r.
    + split; [reflexivity|]. now exists [BatchError number table].
  - split; [reflexivity|]. now exists [BatchError number table].
Qed.

Lemma announces_move_batch (table : str) (cols : list str)
      (rows : list (list value)) (batch_size i : Z) :
  announces (@move_batch _ T table cols rows batch_size i)
    [(i / batch_size + 1)%Z].
Proof.
  unfold move_batch.
  refine (announces_bind (n1 := []) _ _).
  - apply announces_try_batch.
  - apply announces_print.
Qed.

Variable conn : sqlite_conn value.

Lemma announces_move_rows (table : str) (rows : list (list value))
      (batch_size : Z) :
  (1 <= batch_size)%Z ->
  select_all conn table = Some rows ->
  announces (@move_rows _ T conn table batch_size)
    (map (fun j => Z.of_nat (S j))
       (seq 0 (List.length (planned_batches rows batch_size)))).
Proof.
  intros Hb Hread.
  rewrite BatchFacts.planned_batches_chunks, length_map, length_seq by lia.
  unfold move_rows. rewrite Hread. clear Hread.
  destruct rows as [|row rows]; [|rewrite BatchFacts.py_range_up by lia].
  - replace (Z.to_nat (ceil_div (Z.of_nat (List.length (@nil (list value))))
                         batch_size)) with 0
      by (unfold ceil_div; simpl; rewrite Z.div_small; lia).
    apply (announces_print (NoData table)).
  - refine (announces_bind (n1 := []) _ _);
      [apply (announces_print (SqliteColumns _ _))|].
    set (n := Z.to_nat _).
    replace (map (fun j => Z.of_nat (S j)) (seq 0 n))
      with (flat_map (fun i => [(i / batch_size + 1)%Z])
              (map (fun j => (Z.of_nat j * batch_size)%Z) (seq 0 n))).
    + apply announces_for_each. intros i. apply announces_move_batch.
    + rewrite RunFacts.flat_map_single, map_map.
      apply map_ext. intros j. rewrite Z.div_mul by lia. lia.
Qed.

End Lines.

End LineFacts.

(** X14.  For a batch size of at least one the batch loop of a table
    whose rows were read always returns, and the lines by which it
    announces an inserted batch bear the numbers 1, 2, ... up to the
    number of batches, in this order, one line for each batch whether
    its insert went through or not. *)
Theorem batch_lines_numbered (value : Type) (T : target value)
        (conn : sqlite_conn value) (table : str)
        (rows : list (list value)) (batch_size : Z) (w : world T) :
  (1 <= batch_size)%Z ->
  select_all conn table = Some rows ->
  let out := move_rows conn table batch_size w in
  snd out = Some tt /\
  exists lines,
    printed (fst out) = printed w ++ lines /\
    inserted_numbers lines =
      map (fun j => Z.of_nat (S j))
        (seq 0 (List.length (planned_batches rows batch_size))).
Proof.
  intros Hb Hread.
  exact (@LineFacts.announces_move_rows _ T conn table rows batch_size
           Hb Hread w).
Qed.

Lemma batch_lines_numbered_witness :
  (1 <= 2)%Z /\
  select_all Sample.shop "users"
    = Some [ ["1" : str; "a" : str]; ["2" : str; "b" : str];
             ["3" : str; "c" : str] ] /\
  exists lines,
    printed (fst (move_rows Sample.shop "users" 2
                    (start Sample.grudging tt))) = [] ++ lines /\
    inserted_numbers lines = [1%Z; 2%Z].
Proof.
  assert (Hb : (1 <= 2)%Z) by lia.
  assert (Hread : select_all Sample.shop "users"
                  = Some [ ["1" : str; "a" : str]; ["2" : str; "b" : str];
                           ["3" : str; "c" : str] ]) by reflexivity.
  split; [exact Hb | split; [exact Hread|]].
  exact (proj2 (@batch_lines_numbered _ Sample.grudging Sample.shop "users"
                  _ 2 (start Sample.grudging tt) Hb Hread)).
Defined.

(** X15.  A token in which a token mapped to INT occurs is mapped to
    INT as well: whatever stands before or after it, the first rule
    keeps deciding. *)
Theorem int_rule_absorbs (pre s post : str) :
  sqlite_type_to_mysql s = "INT" ->
  sqlite_type_to_mysql (pre ++ s ++ post) = "INT".
Proof.
  intros Hs.
  assert (Hint : Text.contains "INT" (Text.upper s) = true).
  { revert Hs. unfold sqlite_type_to_mysql. set (u := Text.upper s).
    destruct (Text.contains "INT" u); [reflexivity|].
    repeat match goal with
           | |- context [Text.contains ?kw u] =>
               destruct (Text.contains kw u); simpl; try discriminate
           end. }
  apply TextFacts.contains_iff in Hint as (a & b & Hab).
  unfold sqlite_type_to_mysql.
  assert (H : Text.contains "INT" (Text.upper (pre ++ s ++ post)) = true).
  { apply TextFacts.contains_iff.
    exists (Text.upper pre ++ a), (b ++ Text.upper post).
    rewrite !TextFacts.upper_app, Hab, <- !app_assoc. reflexivity. }
  now rewrite H.
Qed.

Lemma int_rule_absorbs_witness :
  sqlite_type_to_mysql ("UNSIGNED BIG " ++ "int" ++ "(11)") = "INT".
Proof. apply int_rule_absorbs. reflexivity. Defined.

(** ** Placeholders *)

Module PlaceholderFacts.

Lemma placeholders_app (a b : str) :
  placeholders (a ++ b) = placeholders a + placeholders b.
Proof. apply count_occ_app. Qed.

Lemma placeholders_join (sep : str) (l : list str) :
  placeholders sep = 0 ->
  placeholders (Text.join sep l) = list_sum (map placeholders l).
Proof.
  intros Hsep. induction l as [|p l IH]; [reflexivity|].
  destruct l as [|q l].
  - simpl. lia.
  - change (Text.join sep (p :: q :: l))
      with (p ++ sep ++ Text.join sep (q :: l)).
    rewrite !placeholders_app, Hsep, IH. reflexivity.
Qed.

Lemma placeholders_backquoted (s : str) :
  placeholders (backquoted s) = placeholders s.
Proof.
  unfold backquoted. rewrite !placeholders_app.
  replace (placeholders "`") with 0 by reflexivity. lia.
Qed.

Lemma list_sum_repeat (x n : nat) : list_sum (repeat x n) = n * x.
Proof. induction n as [|n IH]; simpl; [reflexivity | now rewrite IH]. Qed.

Lemma list_sum_zero (l : list nat) :
  Forall (fun x => x = 0) l -> list_sum l = 0.
Proof. induction 1 as [|x l -> _ IH]; simpl; [reflexivity | exact IH]. Qed.

Lemma concat_length (A : Type) (rows : list (list A)) (n : nat) :
  Forall (fun row => List.length row = n) rows ->
  List.length (List.concat rows) = List.length rows * n.
Proof.
  induction 1 as [|row rows Hrow _ IH]; simpl; [reflexivity|].
  rewrite length_app, IH, Hrow. reflexivity.
Qed.

Lemma insert_sql_parts (value : Type) (table : str) (cols : list str)
      (batch : list (list value)) :
  insert_sql table cols batch =
  ("INSERT INTO " : str) ++ backquoted table ++ (" (" : str)
    ++ Text.join ", " (map backquoted cols) ++ (") VALUES " : str)
    ++ Text.join ", "
         (map (fun _ => ("(" : str)
                        ++ Text.join ", "
                             (repeat ("%s" : str) (List.length cols))
                        ++ (")" : str)) batch).
Proof. reflexivity. Qed.

End PlaceholderFacts.

(** X16.  When neither the table name nor a column name holds a percent
    sign and every row of the batch has one value for each column, the
    insert statement of lines 111-113 has exactly as many placeholders
    as it has parameters. *)
Theorem placeholders_match_parameters (value : Type) (table : str)
        (cols : list str) (batch : list (list value)) :
  placeholders table = 0 ->
  Forall (fun c => placeholders c = 0) cols ->
  Forall (fun row => List.length row = List.length cols) batch ->
  placeholders (fst (insert_statement table cols batch)) =
  List.length (snd (insert_statement table cols batch)).
Proof.
  intros Ht Hc Hrows. unfold insert_statement. cbn [fst snd].
  rewrite (PlaceholderFacts.concat_length Hrows).
  rewrite PlaceholderFacts.insert_sql_parts.
  rewrite !PlaceholderFacts.placeholders_app.
  rewrite PlaceholderFacts.placeholders_backquoted, Ht.
  rewrite !PlaceholderFacts.placeholders_join by reflexivity.
  rewrite !map_map.
  rewrite (PlaceholderFacts.list_sum_zero (l := map _ cols)).
  - rewrite (map_ext _ (fun _ => List.length cols)).
    + rewrite map_const, PlaceholderFacts.list_sum_repeat.
      replace (placeholders "INSERT INTO ") with 0 by reflexivity.
      replace (placeholders " (") with 0 by reflexivity.
      replace (placeholders ") VALUES ") with 0 by reflexivity.
      lia.
    + intros row. rewrite !PlaceholderFacts.placeholders_app.
      rewrite PlaceholderFacts.placeholders_join by reflexivity.
      rewrite map_repeat, PlaceholderFacts.list_sum_repeat.
      replace (placeholders "(") with 0 by reflexivity.
      replace (placeholders ")") with 0 by reflexivity.
      replace (placeholders "%s") with 1 by reflexivity.
      lia.
  - apply Forall_map. apply Forall_impl with (2 := Hc).
    intros c H. now rewrite PlaceholderFacts.placeholders_backquoted.
Qed.

Lemma placeholders_match_parameters_witness :
  placeholders
    (fst (insert_statement "users" ["id" : str; "name" : str]
            [["1" : str; "a" : str]; ["2" : str; "b" : str]])) =
  List.length
    (snd (insert_statement "users" ["id" : str; "name" : str]
            [["1" : str; "a" : str]; ["2" : str; "b" : str]])).
Proof.
  apply placeholders_match_parameters.
  - reflexivity.
  - repeat constructor.
  - repeat constructor.
Defined.
